(** * gosh: a shallow embedding of the SSH client library

    The development follows the Go sources file by file:
    - [Auth]       the credential resolver (auth.go);
    - [KnownHosts] the host trust store (knownhosts.go);
    - [Client]     the connection manager (gosh.go);
    - [Cmd]        the remote command (cmd.go);
    - [Gosh], [Facade], [Transfer]  the package-level [Ping], the commands
                   of a client and the file transfer (gosh.go).

    Go functions that return [(value, error)] are embedded as functions
    returning a pair whose second component is an [option error] ([None] is
    Go's [nil] error).  Code that talks to the operating system or to the
    SSH transport threads an explicit state. *)

From Stdlib.Strings Require Import Ascii Byte.
From stdpp Require Import base option list strings pretty functions gmap.

Local Open Scope string_scope.

(** ** Values shared by all components *)

(** [ssh.PublicKey]: the key algorithm name and the marshalled key. *)
Record PublicKey := { key_type : string; key_blob : string }.

#[global] Instance PublicKey_eq_dec : EqDecision PublicKey.
Proof. solve_decision. Defined.

(** [net.Addr], represented by the result of its [String()] method. *)
Definition Addr := string.

(** [context.Context.Err()] once the context is done. *)
Inductive ctx_error := Canceled | DeadlineExceeded.

(** Go [error] values that the library creates or passes on. *)
Inductive error :=
| ErrNilSession                     (* cmd.go: var ErrNilSession *)
| ErrNoAuthMethod                   (* auth.go: errors.New("no auth method") *)
| ErrNoAgent                        (* auth.go: errors.New("no agent") *)
| ErrOS (msg : string)              (* errors of os, net and io *)
| ErrSSH (msg : string)             (* errors of golang.org/x/crypto/ssh *)
| KeyError (want : list PublicKey)  (* *knownhosts.KeyError, field Want *)
| ErrKnownHosts (msg : string)      (* the other errors of knownhosts *)
| ErrContext (e : ctx_error)        (* context.Canceled, DeadlineExceeded *)
| ErrUser (msg : string).           (* errors made by the caller's callbacks *)

#[global] Instance ctx_error_eq_dec : EqDecision ctx_error.
Proof. solve_decision. Defined.

#[global] Instance error_eq_dec : EqDecision error.
Proof. solve_decision. Defined.

(** The result of a Go function that returns either a value with a [nil]
    error or no value with an error. *)
Inductive result (A : Type) :=
| Ok (a : A)
| Err (err : error).
Arguments Ok {A}.
Arguments Err {A}.

(** [errors.As(err, &keyErr)] for a target of type [*knownhosts.KeyError]. *)
Definition errors_As_KeyError (e : error) : option (list PublicKey) :=
  match e with
  | KeyError want => Some want
  | _ => None
  end.

(** gosh.go: [Options]. [Port] is a Go [int], [Timeout] a [time.Duration]
    in nanoseconds.  The fields live in a module of their own because
    auth.go has functions called [Key] and [Password] as well. *)
Module Options.
Record t := {
  Username : string;
  Password : string;
  Key : string;
  KeyPassphrase : string;
  Addr : string;
  Port : Z;
  UseAgent : bool;
  Timeout : Z
}.
End Options.

Definition DefaultUsername : string := "root".
Definition DefaultTimeout : Z := 20 * 1000000000.
Definition DefaultPort : Z := 22.
Definition DefaultProtocol : string := "tcp".

(** [NewOptions]: the fields it does not set have Go's zero values. *)
Definition NewOptions : Options.t :=
  {| Options.Username := DefaultUsername; Options.Password := "";
     Options.Key := ""; Options.KeyPassphrase := ""; Options.Addr := "";
     Options.Port := DefaultPort; Options.UseAgent := false;
     Options.Timeout := DefaultTimeout |}.

(** ** Credential resolver (auth.go) *)

Module Auth.

(** [ssh.Signer], represented by the key material it was parsed from. *)
Record Signer := { signer_key : list byte }.

(** [ssh.AuthMethod]: the three ways in which the library builds one. *)
Inductive AuthMethod :=
| PublicKeysCallback (agent_socket : string)  (* ssh.PublicKeysCallback(agent signers) *)
| PublicKeys (signer : option Signer)         (* ssh.PublicKeys(signer) *)
| PasswordMethod (pass : string).             (* ssh.Password(pass) *)

(** What the resolver reads from its surroundings: the process
    environment, the agent socket, the file system and the key parser of
    the transport library.  None of them is written to. *)
Record Env := {
  Getenv : string -> string;
  DialUnix : string -> option error;
  ReadFile : string -> list byte * option error;
  ParsePrivateKey : list byte -> option Signer * option error;
  ParsePrivateKeyWithPassphrase :
    list byte -> string -> option Signer * option error
}.

Section WithEnv.
Variable env : Env.

(** [HasAgent]: is [SSH_AUTH_SOCK] set to a non-empty value? *)
Definition HasAgent : bool :=
  bool_decide (Getenv env "SSH_AUTH_SOCK" <> "").

(** [Agent]. *)
Definition Agent : option AuthMethod * option error :=
  if negb HasAgent then (None, Some ErrNoAgent)
  else
    match DialUnix env (Getenv env "SSH_AUTH_SOCK") with
    | Some err => (None, Some err)
    | None => (Some (PublicKeysCallback (Getenv env "SSH_AUTH_SOCK")), None)
    end.

(** [Password]. *)
Definition Password (pass : string) : AuthMethod := PasswordMethod pass.

(** [GetSigner]: the named results are returned as they stand when the
    file cannot be read. *)
Definition GetSigner (sshkey passphrase : string)
  : option Signer * option error :=
  match ReadFile env sshkey with
  | (_, Some err) => (None, Some err)
  | (data, None) =>
      if bool_decide (passphrase <> "")
      then ParsePrivateKeyWithPassphrase env data passphrase
      else ParsePrivateKey env data
  end.

(** [Key]. *)
Definition Key (sshkey passphrase : string)
  : option AuthMethod * option error :=
  match GetSigner sshkey passphrase with
  | (_, Some err) => (None, Some err)
  | (signer, None) => (Some (PublicKeys signer), None)
  end.

(** [Auth].  Each of the first two [if] blocks returns from the function
    when its inner call has a [nil] error and falls through to the next
    block otherwise. *)
Definition Auth (opts : Options.t) : option AuthMethod * option error :=
  match (if Options.UseAgent opts && HasAgent then Some Agent else None) with
  | Some (auth, None) => (auth, None)
  | _ =>
      match (if bool_decide (Options.Key opts <> "")
             then Some (Key (Options.Key opts) (Options.KeyPassphrase opts))
             else None) with
      | Some (auth, None) => (auth, None)
      | _ =>
          if bool_decide (Options.Password opts <> "")
          then (Some (Password (Options.Password opts)), None)
          else (None, Some ErrNoAuthMethod)
      end
  end.
End WithEnv.

End Auth.

(** ** Host trust store (knownhosts.go) *)

(** The package [golang.org/x/crypto/ssh/knownhosts] is used by the
    repository and is not part of it.  It is represented here by what its
    documentation says of [New], [Normalize], [Line] and [KeyError], at the
    level of the lines of a file: a line holds address patterns and a key,
    or it does not parse.  Hashed host names, wildcard patterns and the
    markers for revoked keys and certificate authorities are left out. *)

Module KnownHosts.

(** One line of a known-hosts file.  [HostLine] is a line as
    [knownhosts.Line] writes it: the address patterns and the key.
    [BadLine] is text that the parser of [knownhosts.New] rejects. *)
Inductive Entry :=
| HostLine (addresses : list string) (key : PublicKey)
| BadLine (raw : string).

(** The part of the operating system that the trust store uses.  A file
    is the sequence of its lines; [open_error] and [write_error] say for
    which paths [os.OpenFile] (create, write only, append, mode 0600) and
    the write to the open file fail. *)
Record OS := {
  UserHomeDir : string * option error;
  files : gmap string (list Entry);
  open_error : string -> option error;
  write_error : string -> option error
}.

(** The callback that [knownhosts.New] returns: it has loaded the file
    and reads nothing more. *)
Definition DBCallback := string -> Addr -> PublicKey -> option error.

(** [filepath.Join] of a directory and a relative path. *)
Definition filepath_Join (dir rel : string) : string := dir +:+ "/" +:+ rel.

(** [knownhosts.New] parses every line and fails on the first that it
    cannot parse. *)
Fixpoint parse (entries : list Entry) : option (list (list string * PublicKey)) :=
  match entries with
  | [] => Some []
  | HostLine addresses key :: rest =>
      match parse rest with
      | Some db => Some ((addresses, key) :: db)
      | None => None
      end
  | BadLine _ :: _ => None
  end.

Section WithNormalize.
(** [knownhosts.Normalize]: the form of an address in a known-hosts
    file.  The embedding does not depend on what it computes. *)
Variable Normalize : string -> string.

(** Does a line of the store cover an address?  Lines written by
    [knownhosts.Line] hold normalized addresses, and the library
    compares the address it looks up in that form. *)
Definition line_match (l : list string * PublicKey) (a : string) : bool :=
  bool_decide (Normalize a ∈ l.1).

(** The library's [checkAddr]: the first matching line with the
    presented key accepts; otherwise the keys of all matching lines are
    reported in a [KeyError] ([Want] is empty for an unknown host). *)
Fixpoint checkAddr (lines : list (list string * PublicKey)) (a : string)
    (remoteKey : PublicKey) (want : list PublicKey) : option error :=
  match lines with
  | [] => Some (KeyError want)
  | l :: rest =>
      if line_match l a then
        if bool_decide (remoteKey = l.2) then None
        else checkAddr rest a remoteKey (want ++ [l.2])%list
      else checkAddr rest a remoteKey want
  end.

(** The address that the library looks up: the host name when there
    is one, the remote address otherwise. *)
Definition hostToCheck (address : string) (remote : Addr) : string :=
  if bool_decide (address <> "") then address else remote.

Definition check (db : list (list string * PublicKey)) : DBCallback :=
  fun address remote key => checkAddr db (hostToCheck address remote) key [].

(** [knownhosts.New] for one file. *)
Definition knownhosts_New (os : OS) (file : string) : result DBCallback :=
  match files os !! file with
  | None => Err (ErrOS "open: no such file or directory")
  | Some entries =>
      match parse entries with
      | None => Err (ErrKnownHosts "knownhosts: parse error")
      | Some db => Ok (check db)
      end
  end.

(** [DefaultKnownHostsPath]. *)
Definition DefaultKnownHostsPath (os : OS) : string * option error :=
  match UserHomeDir os with
  | (_, Some err) => ("", Some err)
  | (home, None) => (filepath_Join home ".ssh/known_hosts", None)
  end.

(** [DefaultHostKeyCallback]. *)
Definition DefaultHostKeyCallback (os : OS) : result DBCallback :=
  match DefaultKnownHostsPath os with
  | (_, Some err) => Err err
  | (fpath, None) => knownhosts_New os fpath
  end.

(** [VerifyKnownHost]. *)
Definition VerifyKnownHost (os : OS) (fpath host : string) (remote : Addr)
    (key : PublicKey) : bool * option error :=
  match (if bool_decide (fpath <> "")
         then knownhosts_New os fpath
         else DefaultHostKeyCallback os) with
  | Err err => (false, Some err)
  | Ok callback =>
      match callback host remote key with
      | None => (true, None)
      | Some err =>
          match errors_As_KeyError err with
          | Some want =>
              if bool_decide (0 < length want)%nat
              then (true, Some (KeyError want))
              else (false, None)
          | None => (false, None)
          end
      end
  end.

(** [os.OpenFile] with [O_CREATE|O_WRONLY|O_APPEND]: the file exists
    afterwards. *)
Definition OpenFile (os : OS) (fpath : string) : OS * option error :=
  match open_error os fpath with
  | Some err => (os, Some err)
  | None =>
      match files os !! fpath with
      | Some _ => (os, None)
      | None =>
          ({| UserHomeDir := UserHomeDir os;
              files := <[fpath := []]> (files os);
              open_error := open_error os;
              write_error := write_error os |}, None)
      end
  end.

(** [f.WriteString] of a line and its newline on a file opened for
    append. *)
Definition WriteString (os : OS) (fpath : string) (line : Entry)
  : OS * option error :=
  match write_error os fpath with
  | Some err => (os, Some err)
  | None =>
      ({| UserHomeDir := UserHomeDir os;
          files := <[fpath := (default [] (files os !! fpath) ++ [line])%list]> (files os);
          open_error := open_error os;
          write_error := write_error os |}, None)
  end.

(** [knownhosts.Line]. *)
Definition Line (addresses : list string) (key : PublicKey) : Entry :=
  HostLine addresses key.

(** [AppendKnownHost]; the deferred [f.Close()] has no effect on the
    model and its error is dropped. *)
Definition AppendKnownHost (os : OS) (fpath host : string) (remote : Addr)
    (key : PublicKey) : option error * OS :=
  match (if bool_decide (fpath = "")
         then DefaultKnownHostsPath os
         else (fpath, None)) with
  | (_, Some err) => (Some err, os)
  | (fpath, None) =>
      match OpenFile os fpath with
      | (_, Some err) => (Some err, os)
      | (os1, None) =>
          let remoteNormalized := Normalize remote in
          let hostNormalized := Normalize host in
          let addresses :=
            if bool_decide (hostNormalized <> remoteNormalized)
            then [remoteNormalized; hostNormalized]
            else [remoteNormalized] in
          match WriteString os1 fpath (Line addresses key) with
          | (os2, err) => (err, os2)
          end
      end
  end.

(** [AutoFixedHostKeyCallback]. *)
Definition AutoFixedHostKeyCallback (os : OS) (host : string) (remote : Addr)
    (key : PublicKey) : option error * OS :=
  match VerifyKnownHost os "" host remote key with
  | (true, Some err) => (Some err, os)
  | (true, None) => (None, os)
  | (false, _) => AppendKnownHost os "" host remote key
  end.
End WithNormalize.

End KnownHosts.

(** ** Connection manager (gosh.go) *)

Module Client.

(** [ssh.HostKeyCallback].  A callback may consult and extend the trust
    store, so it runs on the operating-system state. *)
Definition HostKeyCallback :=
  KnownHosts.OS -> string -> Addr -> PublicKey -> option error * KnownHosts.OS.

(** A callback that has loaded its store in advance reads nothing. *)
Definition of_db (cb : KnownHosts.DBCallback) : HostKeyCallback :=
  fun os hostname remote key => (cb hostname remote key, os).

(** [ssh.InsecureIgnoreHostKey()]. *)
Definition InsecureIgnoreHostKey : HostKeyCallback :=
  fun os _ _ _ => (None, os).

(** [ssh.ClientConfig], with the fields that [dial] sets. *)
Record ClientConfig := {
  User : string;
  AuthMethods : list (option Auth.AuthMethod);
  ConfigTimeout : Z;
  ConfigHostKeyCallback : HostKeyCallback
}.

(** The secure-channel capability.  [key_exchange] connects to the
    address and learns the remote socket address and the host key that the
    server presents; [userauth] authenticates and yields the handle of the
    new [*ssh.Client]; [conn_Close] is the [Close] method of that client. *)
Record ConnOps (S : Type) := {
  key_exchange : string -> string -> Z -> S -> (Addr * PublicKey + error) * S;
  userauth : string -> list (option Auth.AuthMethod) -> S -> (nat + error) * S;
  conn_Close : nat -> S -> option error * S
}.
Arguments key_exchange {S}.
Arguments userauth {S}.
Arguments conn_Close {S}.

(** Calls that reach the transport. *)
Inductive Call :=
| CallDial (network addr : string)
| CallClose (conn : nat).

(** The world of a client: the transport, the trust store and the log of
    the transport calls made so far. *)
Record World (S : Type) := {
  net : S;
  os : KnownHosts.OS;
  calls : list Call
}.
Arguments net {S}.
Arguments os {S}.
Arguments calls {S}.

(** gosh.go: [Client]; [ssh_Client] is the embedded [*ssh.Client], which
    is [nil] until [Dial] succeeds. *)
Record t := {
  ssh_Client : option nat;
  opts : Options.t;
  auth : option Auth.AuthMethod;
  callback : HostKeyCallback
}.

(** [net.JoinHostPort]. *)
Definition contains_colon_or_percent (host : string) : bool :=
  existsb (fun c => bool_decide (c = ":"%char) || bool_decide (c = "%"%char))
          (String.list_ascii_of_string host).

Definition JoinHostPort (host port : string) : string :=
  if contains_colon_or_percent host
  then "[" +:+ host +:+ "]:" +:+ port
  else host +:+ ":" +:+ port.

(** [New]: the client starts with a callback that returns [nil]. *)
Definition New (env : Auth.Env) (o : Options.t) : result t :=
  match Auth.Auth env o with
  | (_, Some err) => Err err
  | (a, None) =>
      Ok {| ssh_Client := None; opts := o; auth := a;
            callback := fun os hostname remote key => (None, os) |}
  end.

(** [WithHostKeyCallback]. *)
Definition WithHostKeyCallback (c : t) (cb : HostKeyCallback) : t :=
  {| ssh_Client := ssh_Client c; opts := opts c; auth := auth c; callback := cb |}.

(** [NewInsecure]. *)
Definition NewInsecure (env : Auth.Env) (o : Options.t) : result t :=
  match New env o with
  | Err err => Err err
  | Ok cli => Ok (WithHostKeyCallback cli InsecureIgnoreHostKey)
  end.

(** [NewDefault]. *)
Definition NewDefault (Normalize : string -> string) (kh : KnownHosts.OS)
    (env : Auth.Env) (o : Options.t) : result t :=
  match KnownHosts.DefaultHostKeyCallback Normalize kh with
  | Err err => Err err
  | Ok cb =>
      match New env o with
      | Err err => Err err
      | Ok cli => Ok (WithHostKeyCallback cli (of_db cb))
      end
  end.

(** The configuration that [dial] hands to [ssh.Dial]. *)
Definition dial_config (c : t) : ClientConfig :=
  {| User := Options.Username (opts c);
     AuthMethods := [auth c];
     ConfigTimeout := Options.Timeout (opts c);
     ConfigHostKeyCallback := callback c |}.

Section WithTransport.
Context {S : Type} (T : ConnOps S).

(** [ssh.Dial]: the handshake asks the configured callback about the
    presented host key and is aborted when the callback rejects it. *)
Definition ssh_Dial (network addr : string) (config : ClientConfig)
    (w : World S) : (option nat * option error) * World S :=
  let log := (calls w ++ [CallDial network addr])%list in
  match key_exchange T network addr (ConfigTimeout config) (net w) with
  | (inr err, s1) => ((None, Some err), {| net := s1; os := os w; calls := log |})
  | (inl (remote, key), s1) =>
      match ConfigHostKeyCallback config (os w) addr remote key with
      | (Some err, os1) =>
          ((None, Some err), {| net := s1; os := os1; calls := log |})
      | (None, os1) =>
          match userauth T (User config) (AuthMethods config) s1 with
          | (inr err, s2) =>
              ((None, Some err), {| net := s2; os := os1; calls := log |})
          | (inl conn, s2) =>
              ((Some conn, None), {| net := s2; os := os1; calls := log |})
          end
      end
  end.

(** [Client.dial]. *)
Definition dial (c : t) (w : World S) : (option nat * option error) * World S :=
  ssh_Dial DefaultProtocol
    (JoinHostPort (Options.Addr (opts c)) (pretty (Options.Port (opts c))))
    (dial_config c) w.

(** [Client.Dial]: on success the receiver holds the new connection. *)
Definition Dial (c : t) (w : World S) : (option error * t) * World S :=
  match dial c w with
  | ((_, Some err), w1) => ((Some err, c), w1)
  | ((cli, None), w1) =>
      ((None, {| ssh_Client := cli; opts := opts c; auth := auth c;
                 callback := callback c |}), w1)
  end.

(** [Client.Ping]. *)
Definition Ping (c : t) (w : World S) : (option error * t) * World S := Dial c w.

(** [Client.Close]: the receiver is not modified. *)
Definition Close (c : t) (w : World S) : option error * World S :=
  match ssh_Client c with
  | Some conn =>
      match conn_Close T conn (net w) with
      | (err, s1) =>
          (err, {| net := s1; os := os w;
                   calls := (calls w ++ [CallClose conn])%list |})
      end
  | None => (None, w)
  end.
End WithTransport.

End Client.

(** ** Buffered line reading (bufio, as used by cmd.go) *)

Module bufio.

(** The size of the buffer of [bufio.NewReader]. *)
Definition defaultBufSize : nat := 4096.

Definition is_newline (b : byte) : bool := Byte.eqb b Byte.x0a.
Definition is_cr (b : byte) : bool := Byte.eqb b Byte.x0d.

(** Position of the first newline among the first [n] bytes. *)
Fixpoint index_newline (n : nat) (s : list byte) : option nat :=
  match n, s with
  | S n', b :: s' =>
      if is_newline b then Some 0
      else match index_newline n' s' with
           | Some i => Some (S i)
           | None => None
           end
  | _, _ => None
  end.

Definition ends_with_cr (line : list byte) : bool :=
  match last line with
  | Some b => is_cr b
  | None => false
  end.

Definition strip_cr (line : list byte) : list byte :=
  if ends_with_cr line then removelast line else line.

(** What one call of [ReadLine] returns: a line (with the flag
    [isPrefix]) and the input left in the reader, or an error at the end
    of the input. *)
Inductive ReadResult :=
| Line (line : list byte) (isPrefix : bool) (rest : list byte)
| ReadError.

(** The method [ReadLine] of a reader with a buffer of [size] bytes whose
    remaining input is [s].  A newline within the buffer ends the line
    (the newline and a carriage return before it are dropped).  A buffer
    that fills up without a newline is returned as a prefix of the line,
    [isPrefix] set, a trailing carriage return being left for the next
    call.  Input that ends without a newline is returned as the last
    line; after that the reader reports the end of the input. *)
Definition ReadLine (size : nat) (s : list byte) : ReadResult :=
  match index_newline size s with
  | Some i => Line (strip_cr (take i s)) false (drop (S i) s)
  | None =>
      if (size <=? length s)%nat then
        if ends_with_cr (take size s)
        then Line (take (size - 1) s) true (drop (size - 1) s)
        else Line (take size s) true (drop size s)
      else
        match s with
        | [] => ReadError
        | _ => Line s false []
        end
  end.

End bufio.

(** ** Remote command (cmd.go) *)

Module Cmd.

(** [LoggingFunc].  A Go function value may keep state between calls, so
    its answer may depend on the lines it was given before. *)
Definition LoggingFunc := list (list byte) -> list byte -> option error.

(** [ssh.Signal]. *)
Inductive Signal := SIGINT | SIGKILL | SIGTERM.

(** How the two channels of the [select] in [executeWithCtx] become ready:
    only the result of the remote call, only the context, or both at the
    moment of the choice (Go then picks one of them, [ctx_chosen]). *)
Inductive Race := ResultFirst | CtxFirst | BothReady (ctx_chosen : bool).

(** [context.Context], as far as a command looks at it. *)
Record Context := { ctx_Err : ctx_error; race : Race }.

(** Methods of [*ssh.Session]. *)
Inductive Call :=
| CallClose
| CallRun (cmd : string)
| CallOutput (cmd : string)
| CallCombinedOutput (cmd : string)
| CallStart (cmd : string)
| CallWait
| CallStdoutPipe
| CallSignal (sig : Signal)
| CallSetenv (name value : string).

(** What an operation does, in order: a call on the session at address
    [p] that has returned, a call that a spawned goroutine makes and whose
    return nobody waits for, an invocation of the line handler. *)
Inductive Event :=
| Transport (p : nat) (c : Call)
| InFlight (p : nat) (c : Call)
| Handler (line : list byte).

(** The session capability of the transport; [S] is the state of one
    session.  [s_stdout] is what the pipe returned by [StdoutPipe]
    delivers until it ends. *)
Record SessionOps (S : Type) := {
  s_Close : S -> option error * S;
  s_Run : string -> S -> option error * S;
  s_Output : string -> S -> (list byte * option error) * S;
  s_CombinedOutput : string -> S -> (list byte * option error) * S;
  s_Start : string -> S -> option error * S;
  s_Wait : S -> option error * S;
  s_StdoutPipe : S -> option error * S;
  s_stdout : S -> list byte;
  s_Signal : Signal -> S -> option error * S;
  s_Setenv : string -> string -> S -> option error * S
}.
Arguments s_Close {S}.
Arguments s_Run {S}.
Arguments s_Output {S}.
Arguments s_CombinedOutput {S}.
Arguments s_Start {S}.
Arguments s_Wait {S}.
Arguments s_StdoutPipe {S}.
Arguments s_stdout {S}.
Arguments s_Signal {S}.
Arguments s_Setenv {S}.

(** The sessions by address and the events so far. *)
Record World (S : Type) := { sessions : nat -> S; trace : list Event }.
Arguments sessions {S}.
Arguments trace {S}.

(** cmd.go: [Cmd]; [session] is a pointer, [None] being [nil]. *)
Record t := {
  Path : string;
  Args : list string;
  session : option nat;
  ctx : option Context
}.

(** [newCommand]. *)
Definition newCommand (session : option nat) (name : string) (args : list string) : t :=
  {| Path := name; Args := args; session := session; ctx := None |}.

(** [newCommandContext]; [None] is the panic on a [nil] context. *)
Definition newCommandContext (ctx : option Context) (session : option nat)
    (name : string) (args : list string) : option t :=
  match ctx with
  | None => None
  | Some _ =>
      let cmd := newCommand session name args in
      Some {| Path := Path cmd; Args := Args cmd; session := session;
              ctx := ctx |}
  end.

(** [Cmd.String]. *)
Definition String (c : t) : string :=
  fold_left (fun b a => b +:+ " " +:+ a) (Args c) (Path c).

(** [Cmd.SetSession]. *)
Definition SetSession (c : t) (session : option nat) : t :=
  {| Path := Path c; Args := Args c; session := session; ctx := ctx c |}.

(** [strings.SplitN(value, "=", 2)], when it has two parts. *)
Fixpoint split_eq (value : string) : option (string * string) :=
  match value with
  | EmptyString => None
  | String.String ch rest =>
      if bool_decide (ch = "="%char) then Some (EmptyString, rest)
      else match split_eq rest with
           | Some (k, v) => Some (String.String ch k, v)
           | None => None
           end
  end.

(** The three closures that are handed to [execute]. *)
Inductive Callback :=
| CombinedOutputCallback (cmd : string)
| OutputCallback (cmd : string)
| RunCallback (cmd : string).

Definition call_of (cb : Callback) : Call :=
  match cb with
  | CombinedOutputCallback cmd => CallCombinedOutput cmd
  | OutputCallback cmd => CallOutput cmd
  | RunCallback cmd => CallRun cmd
  end.

(** How the read loop of [OutputPipe] ends. *)
Inductive LoopEnd := Returned (err : error) | Broke | OutOfFuel.

Section WithTransport.
Context {S : Type} (T : SessionOps S).

(** Operations are state transformers on the world. *)
Definition M (A : Type) : Type := World S -> A * World S.

Definition ret {A} (a : A) : M A := fun w => (a, w).

Definition bind {A B} (m : M A) (k : A -> M B) : M B :=
  fun w => let (a, w1) := m w in k a w1.

Local Notation "x <- m ;; k" := (bind m (fun x => k))
  (at level 100, m at next level, right associativity).

Definition emit (e : Event) : M unit :=
  fun w => (tt, {| sessions := sessions w; trace := (trace w ++ [e])%list |}).

(** A method call on the session at [p]. *)
Definition transport {A} (p : nat) (c : Call) (op : S -> A * S) : M A :=
  fun w =>
    let (a, s1) := op (sessions w p) in
    (a, {| sessions := <[p := s1]> (sessions w);
           trace := (trace w ++ [Transport p c])%list |}).

Definition run_callback (p : nat) (cb : Callback) : M (list byte * option error) :=
  match cb with
  | CombinedOutputCallback cmd =>
      transport p (CallCombinedOutput cmd) (s_CombinedOutput T cmd)
  | OutputCallback cmd => transport p (CallOutput cmd) (s_Output T cmd)
  | RunCallback cmd =>
      err <- transport p (CallRun cmd) (s_Run T cmd) ;; ret ([], err)
  end.

(** The case that the [select] statement takes. *)
Definition ctx_case_chosen (r : Race) : bool :=
  match r with
  | ResultFirst => false
  | CtxFirst => true
  | BothReady ctx_chosen => ctx_chosen
  end.

(** [executeWithCtx].  The goroutine always starts the callback; the
    caller either receives its result or, when the context is done,
    signals the session and returns without it. *)
Definition executeWithCtx (p : nat) (cx : Context) (cb : Callback)
  : M (list byte * option error) :=
  if ctx_case_chosen (race cx) then
    _ <- emit (InFlight p (call_of cb)) ;;
    _ <- transport p (CallSignal SIGINT) (s_Signal T SIGINT) ;;
    ret ([], Some (ErrContext (ctx_Err cx)))
  else run_callback p cb.

(** [execute]. *)
Definition execute (c : t) (p : nat) (cb : Callback) : M (list byte * option error) :=
  match ctx c with
  | None => run_callback p cb
  | Some cx => executeWithCtx p cx cb
  end.

(** The deferred [c.session.Close()], whose error is dropped. *)
Definition deferred_Close (p : nat) : M unit :=
  _ <- transport p CallClose (s_Close T) ;; ret tt.

(** [CombinedOutput]. *)
Definition CombinedOutput (c : t) : M (list byte * option error) :=
  match session c with
  | None => ret ([], Some ErrNilSession)
  | Some p =>
      r <- execute c p (CombinedOutputCallback (String c)) ;;
      _ <- deferred_Close p ;;
      ret r
  end.

(** [Output]. *)
Definition Output (c : t) : M (list byte * option error) :=
  match session c with
  | None => ret ([], Some ErrNilSession)
  | Some p =>
      r <- execute c p (OutputCallback (String c)) ;;
      _ <- deferred_Close p ;;
      ret r
  end.

(** [Run]. *)
Definition Run (c : t) : M (option error) :=
  match session c with
  | None => ret (Some ErrNilSession)
  | Some p =>
      r <- execute c p (RunCallback (String c)) ;;
      _ <- deferred_Close p ;;
      ret r.2
  end.

(** [Start]. *)
Definition Start (c : t) : M (option error) :=
  match session c with
  | None => ret (Some ErrNilSession)
  | Some p =>
      r <- transport p (CallStart (String c)) (s_Start T (String c)) ;;
      _ <- deferred_Close p ;;
      ret r
  end.

(** The [for] loop of [OutputPipe] on a reader whose remaining input is
    [s]; [seen] are the lines handed to [fn] so far.  Any error of
    [ReadLine] leaves the loop, an error of [fn] leaves the function. *)
Fixpoint readLoop (fuel : nat) (fn : LoggingFunc) (seen : list (list byte))
    (s : list byte) : M LoopEnd :=
  match fuel with
  | O => ret OutOfFuel
  | Datatypes.S fuel' =>
      match bufio.ReadLine bufio.defaultBufSize s with
      | bufio.ReadError => ret Broke
      | bufio.Line line _ rest =>
          _ <- emit (Handler line) ;;
          match fn seen line with
          | Some err => ret (Returned err)
          | None => readLoop fuel' fn (seen ++ [line])%list rest
          end
      end
  end.

(** The end of [OutputPipe], once the command was started: the read loop
    on the pipe and, unless the handler failed, the wait for the exit. *)
Definition OutputPipe_read (p : nat) (fn : LoggingFunc) : M (option error) :=
  fun w =>
    let stdout := s_stdout T (sessions w p) in
    (e <- readLoop (Datatypes.S (length stdout)) fn [] stdout ;;
     match e with
     | Returned err => ret (Some err)
     | _ => transport p CallWait (s_Wait T)
     end) w.

(** The body of [OutputPipe] after the [nil] check. *)
Definition OutputPipe_body (c : t) (p : nat) (fn : LoggingFunc) : M (option error) :=
  err <- transport p CallStdoutPipe (s_StdoutPipe T) ;;
  match err with
  | Some e => ret (Some e)
  | None =>
      err <- transport p (CallStart (String c)) (s_Start T (String c)) ;;
      match err with
      | Some e => ret (Some e)
      | None => OutputPipe_read p fn
      end
  end.

(** [OutputPipe]. *)
Definition OutputPipe (c : t) (fn : LoggingFunc) : M (option error) :=
  match session c with
  | None => ret (Some ErrNilSession)
  | Some p =>
      r <- OutputPipe_body c p fn ;;
      _ <- deferred_Close p ;;
      ret r
  end.


End WithTransport.

End Cmd.

(** * Properties of the credential resolver *)

(** A small environment for examples: an agent socket may be announced,
    exactly one key file exists and it parses without a passphrase. *)
Definition example_env (sock : string) : Auth.Env :=
  {| Auth.Getenv := fun name => if bool_decide (name = "SSH_AUTH_SOCK") then sock else "";
     Auth.DialUnix := fun _ => None;
     Auth.ReadFile := fun path =>
       if bool_decide (path = "/home/u/.ssh/id_ed25519") then ([Byte.x01], None)
       else ([], Some (ErrOS "open: no such file or directory"));
     Auth.ParsePrivateKey := fun data => (Some {| Auth.signer_key := data |}, None);
     Auth.ParsePrivateKeyWithPassphrase := fun data _ =>
       (None, Some (ErrSSH "ssh: not an encrypted key")) |}.

Definition password_options (pass : string) : Options.t :=
  {| Options.Username := "root"; Options.Password := pass; Options.Key := "";
     Options.KeyPassphrase := ""; Options.Addr := "example.org";
     Options.Port := 22; Options.UseAgent := false;
     Options.Timeout := DefaultTimeout |}.

Definition agent_key_password_options : Options.t :=
  {| Options.Username := "root"; Options.Password := "secret";
     Options.Key := "/nonexistent"; Options.KeyPassphrase := "";
     Options.Addr := "example.org"; Options.Port := 22;
     Options.UseAgent := true; Options.Timeout := DefaultTimeout |}.

Lemma Auth_agent_step_skipped env opts :
  Options.UseAgent opts = false \/ Auth.Getenv env "SSH_AUTH_SOCK" = "" ->
  (if Options.UseAgent opts && Auth.HasAgent env then Some (Auth.Agent env) else None)
  = None.
Proof.
  intros [Hu | Hs].
  - now rewrite Hu.
  - unfold Auth.HasAgent. rewrite Hs.
    rewrite bool_decide_eq_false_2 by (intros H; now apply H).
    now rewrite andb_false_r.
Qed.

(** C8.  When agent authentication is unavailable ([UseAgent] is false or
    [SSH_AUTH_SOCK] is empty), no key path is set and no password is set,
    [Auth] returns the error "no auth method" and a [nil] method. *)
Theorem Auth_no_auth_method env opts :
  Options.UseAgent opts = false \/ Auth.Getenv env "SSH_AUTH_SOCK" = "" ->
  Options.Key opts = "" ->
  Options.Password opts = "" ->
  Auth.Auth env opts = (None, Some ErrNoAuthMethod).
Proof.
  intros Hagent Hkey Hpass. unfold Auth.Auth.
  rewrite (Auth_agent_step_skipped env opts Hagent), Hkey, Hpass.
  reflexivity.
Qed.

Lemma Auth_no_auth_method_witness :
  Auth.Auth (example_env "/run/agent.sock") NewOptions = (None, Some ErrNoAuthMethod).
Proof.
  apply Auth_no_auth_method; [left | | ]; reflexivity.
Defined.

(** C9 as stated fails: with a working agent the resolver returns the
    agent method, although the key cannot be loaded and a password is set. *)
Lemma Auth_key_failure_agent_counterexample :
  let env := example_env "/run/agent.sock" in
  let opts := agent_key_password_options in
  Options.Key opts <> "" /\
  (Auth.Key env (Options.Key opts) (Options.KeyPassphrase opts)).2 <> None /\
  Options.Password opts <> "" /\
  Auth.Auth env opts = (Some (Auth.PublicKeysCallback "/run/agent.sock"), None) /\
  Auth.Auth env opts <> (Some (Auth.Password (Options.Password opts)), None).
Proof.
  cbv zeta. repeat split; try discriminate; vm_compute; discriminate.
Qed.

(** C9, amended.  When the agent step yields no method (agent not
    requested, no socket announced, or the agent call fails), a key path is
    configured whose key fails to load, and the password is not empty,
    [Auth] falls through the key step and returns the password method. *)
Theorem Auth_key_failure_falls_through_to_password env opts :
  Options.UseAgent opts && Auth.HasAgent env = false \/ (Auth.Agent env).2 <> None ->
  Options.Key opts <> "" ->
  (Auth.Key env (Options.Key opts) (Options.KeyPassphrase opts)).2 <> None ->
  Options.Password opts <> "" ->
  Auth.Auth env opts = (Some (Auth.Password (Options.Password opts)), None).
Proof.
  intros Hagent Hkey Hfail Hpass. unfold Auth.Auth.
  assert (Hstep : match (if Options.UseAgent opts && Auth.HasAgent env
                         then Some (Auth.Agent env) else None) with
                  | Some (_, None) => False
                  | _ => True
                  end).
  { destruct Hagent as [-> | Hne]; [exact I |].
    destruct (Options.UseAgent opts && Auth.HasAgent env); [| exact I].
    destruct (Auth.Agent env) as [a [e |]]; [exact I | now apply Hne]. }
  destruct (if Options.UseAgent opts && Auth.HasAgent env
            then Some (Auth.Agent env) else None) as [[a [e |]] |];
    try contradiction;
    rewrite (bool_decide_eq_true_2 _ Hkey);
    destruct (Auth.Key env (Options.Key opts) (Options.KeyPassphrase opts))
      as [k [e' |]]; try (now exfalso; apply Hfail);
    now rewrite (bool_decide_eq_true_2 _ Hpass).
Qed.

Lemma Auth_key_failure_falls_through_to_password_witness :
  let opts := {| Options.Username := "root"; Options.Password := "secret";
                 Options.Key := "/nonexistent"; Options.KeyPassphrase := "";
                 Options.Addr := "example.org"; Options.Port := 22;
                 Options.UseAgent := false; Options.Timeout := DefaultTimeout |} in
  Auth.Auth (example_env "") opts = (Some (Auth.Password "secret"), None).
Proof.
  cbv zeta.
  apply (Auth_key_failure_falls_through_to_password (example_env ""));
    [left; reflexivity | discriminate | vm_compute; discriminate | discriminate].
Defined.

(** * Properties of the host trust store *)

Module KnownHostsSpec.
Import KnownHosts.

(** The file that [VerifyKnownHost] and [AppendKnownHost] work on: the
    given path, or the default path when the given one is empty. *)
Definition store_path (os : OS) (fpath : string) : string * option error :=
  if bool_decide (fpath = "") then DefaultKnownHostsPath os else (fpath, None).

(** The records of the store, or the reason why it does not load. *)
Definition load_store (os : OS) (fpath : string)
  : list (list string * PublicKey) * option error :=
  match store_path os fpath with
  | (_, Some err) => ([], Some err)
  | (p, None) =>
      match files os !! p with
      | None => ([], Some (ErrOS "open: no such file or directory"))
      | Some entries =>
          match parse entries with
          | None => ([], Some (ErrKnownHosts "knownhosts: parse error"))
          | Some db => (db, None)
          end
      end
  end.

(** The store file is absent or every line of it parses. *)
Definition well_formed (os : OS) (fpath : string) : Prop :=
  match store_path os fpath with
  | (p, None) =>
      match files os !! p with
      | Some entries => is_Some (parse entries)
      | None => True
      end
  | _ => True
  end.

(** An operating system for examples: home directory [/home/u] and the
    given files, all of which can be opened and written. *)
Definition example_os (fs : gmap string (list Entry)) : OS :=
  {| UserHomeDir := ("/home/u", None); files := fs;
     open_error := fun _ => None; write_error := fun _ => None |}.

Definition key1 : PublicKey := {| key_type := "ssh-ed25519"; key_blob := "AAAA1" |}.
Definition key2 : PublicKey := {| key_type := "ssh-ed25519"; key_blob := "AAAA2" |}.

Section WithNormalize.
Variable Normalize : string -> string.

Local Abbreviation line_match := (line_match Normalize).
Local Abbreviation checkAddr := (checkAddr Normalize).
Local Abbreviation VerifyKnownHost := (VerifyKnownHost Normalize).

(** The lines of the store that cover an address. *)
Definition matching (db : list (list string * PublicKey)) (a : string)
  : list (list string * PublicKey) :=
  filter (fun l => line_match l a = true) db.

Lemma checkAddr_accepts db a key want :
  key ∈ (matching db a).*2 -> checkAddr db a key want = None.
Proof.
  revert want. induction db as [| l db IH]; intros want Hin; simpl in *.
  - unfold matching in Hin. simpl in Hin. inversion Hin.
  - unfold matching in Hin. rewrite filter_cons in Hin.
    destruct (decide (line_match l a = true)) as [Hm | Hm].
    + rewrite Hm. case_bool_decide as Hk; [reflexivity |].
      apply IH. simpl in Hin. apply elem_of_cons in Hin as [-> | Hin]; [| exact Hin].
      now exfalso.
    + apply not_true_is_false in Hm. rewrite Hm. now apply IH.
Qed.

Lemma checkAddr_rejects db a key want :
  key ∉ (matching db a).*2 ->
  checkAddr db a key want = Some (KeyError (want ++ (matching db a).*2)).
Proof.
  revert want. induction db as [| l db IH]; intros want Hnin; simpl.
  - unfold matching. simpl. now rewrite app_nil_r.
  - unfold matching in *. rewrite filter_cons in *.
    destruct (decide (line_match l a = true)) as [Hm | Hm].
    + rewrite Hm. simpl in Hnin. apply not_elem_of_cons in Hnin as [Hne Hnin].
      rewrite bool_decide_eq_false_2 by exact Hne.
      rewrite IH by exact Hnin. simpl. now rewrite <- app_assoc.
    + apply not_true_is_false in Hm. rewrite Hm. now apply IH.
Qed.

Lemma VerifyKnownHost_load os fpath :
  (if bool_decide (fpath <> "")
   then knownhosts_New Normalize os fpath
   else DefaultHostKeyCallback Normalize os)
  = match load_store os fpath with
    | (_, Some err) => Err err
    | (db, None) => Ok (check Normalize db)
    end.
Proof.
  unfold load_store, store_path, DefaultHostKeyCallback, knownhosts_New.
  destruct (decide (fpath = "")) as [-> | Hne].
  - rewrite bool_decide_eq_false_2 by (intros H; now apply H).
    rewrite bool_decide_eq_true_2 by reflexivity.
    destruct (DefaultKnownHostsPath os) as [p [e |]]; [reflexivity |].
    destruct (files os !! p) as [entries |]; [| reflexivity].
    now destruct (parse entries).
  - rewrite (bool_decide_eq_true_2 _ Hne).
    rewrite (bool_decide_eq_false_2 _ Hne).
    destruct (files os !! fpath) as [entries |]; [| reflexivity].
    now destruct (parse entries).
Qed.

(** What [VerifyKnownHost] returns, from the records of the store. *)
Lemma VerifyKnownHost_by_store os fpath host remote key :
  VerifyKnownHost os fpath host remote key =
  match load_store os fpath with
  | (_, Some err) => (false, Some err)
  | (db, None) =>
      let known := (matching db (hostToCheck host remote)).*2 in
      if bool_decide (key ∈ known) then (true, None)
      else match known with
           | [] => (false, None)
           | _ => (true, Some (KeyError known))
           end
  end.
Proof.
  unfold KnownHosts.VerifyKnownHost. rewrite VerifyKnownHost_load.
  destruct (load_store os fpath) as [db [e |]]; [reflexivity |].
  cbv zeta. unfold check. case_bool_decide as Hin.
  - now rewrite checkAddr_accepts.
  - rewrite checkAddr_rejects by exact Hin. simpl.
    now destruct ((matching db (hostToCheck host remote)).*2).
Qed.

End WithNormalize.


Section AppendAndPolicy.
Variable Normalize : string -> string.

Local Abbreviation VerifyKnownHost := (VerifyKnownHost Normalize).
Local Abbreviation AppendKnownHost := (AppendKnownHost Normalize).
Local Abbreviation AutoFixedHostKeyCallback := (AutoFixedHostKeyCallback Normalize).

(** The addresses of the record that [AppendKnownHost] writes. *)
Definition appended_addresses (host : string) (remote : Addr) : list string :=
  if bool_decide (Normalize host <> Normalize remote)
  then [Normalize remote; Normalize host]
  else [Normalize remote].

Lemma appended_addresses_cover host remote :
  Normalize (hostToCheck host remote) ∈ appended_addresses host remote.
Proof.
  unfold hostToCheck, appended_addresses.
  case_bool_decide; case_bool_decide as Hne; set_solver.
Qed.

(** A successful [AppendKnownHost] leaves the store file with one more
    line, the record of the host, and changes nothing else. *)
Lemma AppendKnownHost_success os fpath host remote key os' :
  AppendKnownHost os fpath host remote key = (None, os') ->
  exists p,
    store_path os fpath = (p, None) /\
    UserHomeDir os' = UserHomeDir os /\
    files os' = (<[p := (default [] (files os !! p)
                         ++ [HostLine (appended_addresses host remote) key])%list]>
                   (files os)).
Proof.
  unfold KnownHosts.AppendKnownHost, store_path, OpenFile, WriteString, Line,
    appended_addresses.
  destruct (if bool_decide (fpath = "") then DefaultKnownHostsPath os
            else (fpath, None)) as [p [e |]]; [discriminate |].
  destruct (open_error os p); [discriminate |].
  destruct (files os !! p) as [entries |] eqn:Hfile; simpl.
  - destruct (write_error os p); [discriminate |].
    intros [= <-]. exists p. simpl. rewrite Hfile. auto.
  - destruct (write_error os p); [discriminate |].
    intros [= <-]. exists p. simpl.
    rewrite lookup_insert_eq, insert_insert_eq, Hfile. auto.
Qed.

Lemma parse_app entries db addresses key :
  parse entries = Some db ->
  parse (entries ++ [HostLine addresses key]) = Some (db ++ [(addresses, key)])%list.
Proof.
  revert db. induction entries as [| [a k | raw] entries IH]; intros db; simpl.
  - now intros [= <-].
  - destruct (parse entries) as [db0 |]; [| discriminate].
    intros [= <-]. now rewrite (IH db0 eq_refl).
  - discriminate.
Qed.


End AppendAndPolicy.



End KnownHostsSpec.

(** * Properties of the connection manager *)

Module ClientSpec.
Import Client.

(** A transport for examples.  Its state is the list of the connections
    that were closed; the server presents [hostkey]; every authentication
    succeeds; closing a connection a second time fails, as closing a
    closed network connection does. *)
Definition example_transport (hostkey : PublicKey) : ConnOps (list nat) :=
  {| key_exchange := fun _ addr _ closed => (inl ("192.0.2.1:22", hostkey), closed);
     userauth := fun _ _ closed => (inl 0, closed);
     conn_Close := fun conn closed =>
       if bool_decide (conn ∈ closed)
       then (Some (ErrOS "use of closed network connection"), closed)
       else (None, conn :: closed) |}.

Definition example_world : World (list nat) :=
  {| net := []; os := KnownHostsSpec.example_os ∅; calls := [] |}.

Definition example_key : PublicKey :=
  {| key_type := "ssh-ed25519"; key_blob := "AAAAC3" |}.

(** C10.  A client made by [New] whose callback was not replaced hands
    to the handshake a host-key callback that accepts every host name,
    remote address and key: it returns [nil] and leaves the trust store
    as it is. *)
Theorem New_callback_accepts_every_key env o c :
  New env o = Ok c ->
  forall os hostname remote key,
    ConfigHostKeyCallback (dial_config c) os hostname remote key = (None, os).
Proof.
  unfold New. destruct (Auth.Auth env o) as [a [e |]]; [discriminate |].
  intros [= <-]. reflexivity.
Qed.

Lemma New_callback_accepts_every_key_witness :
  New (example_env "") (password_options "secret")
  = Ok {| ssh_Client := None; opts := password_options "secret";
          auth := Some (Auth.PasswordMethod "secret");
          callback := fun os _ _ _ => (None, os) |} /\
  ConfigHostKeyCallback
    (dial_config
       {| ssh_Client := None; opts := password_options "secret";
          auth := Some (Auth.PasswordMethod "secret");
          callback := fun os _ _ _ => (None, os) |})
    (KnownHostsSpec.example_os ∅) "example.org:22" "192.0.2.1:22" example_key
  = (None, KnownHostsSpec.example_os ∅).
Proof.
  split; [reflexivity |].
  apply (New_callback_accepts_every_key (example_env "") (password_options "secret")).
  reflexivity.
Defined.

Section WithTransport.
Context {S : Type} (T : ConnOps S).

(** After a successful [Dial] the client holds a connection. *)
Lemma Dial_success c w c' w1 :
  Dial T c w = ((None, c'), w1) ->
  exists conn, ssh_Client c' = Some conn.
Proof.
  unfold Dial, dial, ssh_Dial.
  destruct (key_exchange T _ _ _ _) as [[[remote key] | e] s1]; [| discriminate].
  destruct (ConfigHostKeyCallback _ _ _ _ _) as [[e |] os1]; [discriminate |].
  destruct (userauth T _ _ _) as [[conn | e] s2]; [| discriminate].
  intros H. inversion H; subst. now exists conn.
Qed.

(** [Close] does not change the client, so what it does depends on
    the connection field alone: on a client that holds a connection
    every call closes that connection at the transport and returns the
    transport's answer. *)
Lemma Close_forwards c conn w :
  ssh_Client c = Some conn ->
  Close T c w
  = ((conn_Close T conn (net w)).1,
     {| net := (conn_Close T conn (net w)).2; os := os w;
        calls := (calls w ++ [CallClose conn])%list |}).
Proof.
  unfold Close. intros ->. now destruct (conn_Close T conn (net w)).
Qed.

(** [Close] is a no-op that returns [nil] exactly on a client that
    holds no connection; otherwise the first call and the one after it
    are both forwarded to the transport. *)
Lemma Close_cases c w :
  match ssh_Client c with
  | None => Close T c w = (None, w)
  | Some conn =>
      let forwarded w0 :=
        ((conn_Close T conn (net w0)).1,
         {| net := (conn_Close T conn (net w0)).2; os := os w0;
            calls := (calls w0 ++ [CallClose conn])%list |}) in
      Close T c w = forwarded w /\
      Close T c (Close T c w).2 = forwarded (Close T c w).2
  end.
Proof.
  destruct (ssh_Client c) as [conn |] eqn:Hc.
  - cbv zeta. now rewrite !(Close_forwards c conn) by exact Hc.
  - unfold Close. now rewrite Hc.
Qed.

(** C5, amended.  On a client on which [Dial] succeeded, every [Close],
    the first and each later one, in whatever state the world is, is a
    call of the transport's [Close] on the connection of the client: it
    is logged as a transport call and returns what the transport
    returns. *)
Theorem Close_after_Dial c w c' w1 :
  Dial T c w = ((None, c'), w1) ->
  exists conn,
    ssh_Client c' = Some conn /\
    forall w2,
      Close T c' w2
      = ((conn_Close T conn (net w2)).1,
         {| net := (conn_Close T conn (net w2)).2; os := os w2;
            calls := (calls w2 ++ [CallClose conn])%list |}).
Proof.
  intros Hdial. destruct (Dial_success c w c' w1 Hdial) as [conn Hc].
  exists conn. split; [exact Hc |]. intros w2. now apply Close_forwards.
Qed.
End WithTransport.

(** C5 as stated fails: after a successful [Dial] and a first [Close]
    that returned [nil], the second [Close] calls the transport again and
    returns its error. *)
Lemma Close_twice_counterexample :
  let T := example_transport example_key in
  let o := password_options "secret" in
  let c := {| ssh_Client := None; opts := o;
              auth := Some (Auth.PasswordMethod "secret");
              callback := fun os _ _ _ => (None, os) |} in
  let d := Dial T c example_world in
  let c1 := d.1.2 in
  let first := Close T c1 d.2 in
  let second := Close T c1 first.2 in
  New (example_env "") o = Ok c /\
  d.1.1 = None /\
  first.1 = None /\
  second.1 = Some (ErrOS "use of closed network connection") /\
  calls second.2 = (calls first.2 ++ [CallClose 0])%list.
Proof.
  cbv zeta. repeat split.
Qed.

Lemma Close_after_Dial_witness :
  let T := example_transport example_key in
  let c := {| ssh_Client := None; opts := password_options "secret";
              auth := Some (Auth.PasswordMethod "secret");
              callback := fun os _ _ _ => (None, os) |} in
  exists conn,
    ssh_Client (Dial T c example_world).1.2 = Some conn /\
    forall w2,
      Close T (Dial T c example_world).1.2 w2
      = ((conn_Close T conn (net w2)).1,
         {| net := (conn_Close T conn (net w2)).2; os := os w2;
            calls := (calls w2 ++ [CallClose conn])%list |}).
Proof.
  intros T c.
  apply (Close_after_Dial T c example_world
           (Dial T c example_world).1.2 (Dial T c example_world).2).
  reflexivity.
Defined.

End ClientSpec.

(** * Properties of buffered line reading *)

Module bufioSpec.
Import bufio.

Lemma index_newline_lt n s i : index_newline n s = Some i -> (i < length s)%nat.
Proof.
  revert s i. induction n as [| n IH]; intros [| b s] i; simpl; try discriminate.
  destruct (is_newline b); [intros [= <-]; lia |].
  destruct (index_newline n s) as [j |] eqn:Hj; [| discriminate].
  intros [= <-]. specialize (IH s j Hj). lia.
Qed.

(** Every successful [ReadLine] consumes input, so reading ends. *)
Lemma ReadLine_consumes size s line isPrefix rest :
  (2 <= size)%nat ->
  ReadLine size s = Line line isPrefix rest ->
  (length rest < length s)%nat.
Proof.
  intros Hsize. unfold ReadLine.
  destruct (index_newline size s) as [i |] eqn:Hi.
  - intros [= _ _ <-]. apply index_newline_lt in Hi.
    rewrite length_drop. lia.
  - destruct (size <=? length s)%nat eqn:Hfull.
    + apply Nat.leb_le in Hfull.
      destruct (ends_with_cr (take size s)); intros [= _ _ <-];
        rewrite length_drop; lia.
    + destruct s as [| b s]; [discriminate |].
      intros [= _ _ <-]. simpl. lia.
Qed.

(** The lines that successive calls of [ReadLine] return on input [s]. *)
Fixpoint read_lines (fuel : nat) (s : list byte) : list (list byte) :=
  match fuel with
  | O => []
  | S fuel' =>
      match ReadLine defaultBufSize s with
      | ReadError => []
      | Line line _ rest => line :: read_lines fuel' rest
      end
  end.

(** Short lines that end in a newline come out one by one. *)
Example read_lines_short :
  read_lines 5 [Byte.x31; Byte.x0a; Byte.x32; Byte.x0d; Byte.x0a; Byte.x33]
  = [[Byte.x31]; [Byte.x32]; [Byte.x33]].
Proof. reflexivity. Qed.

End bufioSpec.

(** * Properties of the remote command *)

Module CmdSpec.
Import Cmd.

(** The five operations that use up the session of a command. *)
Inductive Operation :=
| OpRun
| OpOutput
| OpCombinedOutput
| OpStart
| OpOutputPipe (fn : LoggingFunc).

(** A session of the example transport: the flags that the session object
    of the SSH library keeps, and the behaviour of the remote process. *)
Record ExampleSession := {
  started : bool;
  closed : bool;
  stdout_taken : bool;
  remote_stdout : list byte;
  exit_error : option error
}.

Definition set_started (s : ExampleSession) : ExampleSession :=
  {| started := true; closed := closed s; stdout_taken := stdout_taken s;
     remote_stdout := remote_stdout s; exit_error := exit_error s |}.

Definition set_closed (s : ExampleSession) : ExampleSession :=
  {| started := started s; closed := true; stdout_taken := stdout_taken s;
     remote_stdout := remote_stdout s; exit_error := exit_error s |}.

Definition take_stdout (s : ExampleSession) : ExampleSession :=
  {| started := started s; closed := closed s; stdout_taken := true;
     remote_stdout := remote_stdout s; exit_error := exit_error s |}.

Definition example_Start (s : ExampleSession) : option error * ExampleSession :=
  if started s then (Some (ErrSSH "ssh: session already started"), s)
  else if closed s then (Some (ErrOS "EOF"), s)
  else (None, set_started s).

Definition example_Wait (s : ExampleSession) : option error * ExampleSession :=
  if started s then (exit_error s, s)
  else (Some (ErrSSH "ssh: session not started"), s).

Definition example_Run (s : ExampleSession) : option error * ExampleSession :=
  match example_Start s with
  | (Some err, s1) => (Some err, s1)
  | (None, s1) => example_Wait s1
  end.

Definition example_Output (s : ExampleSession)
  : (list byte * option error) * ExampleSession :=
  if stdout_taken s then (([], Some (ErrSSH "ssh: Stdout already set")), s)
  else
    match example_Run (take_stdout s) with
    | (Some err, s1) => (([], Some err), s1)
    | (None, s1) => ((remote_stdout s1, None), s1)
    end.

(** A transport for examples, after the session of the SSH library: a
    session starts once, its standard output is taken once, and closing it
    again reports the end of the channel. *)
Definition example_transport : SessionOps ExampleSession :=
  {| s_Close := fun s => if closed s then (Some (ErrOS "EOF"), s) else (None, set_closed s);
     s_Run := fun _ => example_Run;
     s_Output := fun _ => example_Output;
     s_CombinedOutput := fun _ => example_Output;
     s_Start := fun _ => example_Start;
     s_Wait := example_Wait;
     s_StdoutPipe := fun s =>
       if stdout_taken s then (Some (ErrSSH "ssh: Stdout already set"), s)
       else if started s then (Some (ErrSSH "ssh: StdoutPipe after process started"), s)
       else (None, take_stdout s);
     s_stdout := remote_stdout;
     s_Signal := fun _ s => if closed s then (Some (ErrOS "EOF"), s) else (None, s);
     s_Setenv := fun _ _ s => (None, s) |}.

(** A world in which every session is fresh and the remote process
    writes [out] and exits with status zero. *)
Definition example_world (out : list byte) : World ExampleSession :=
  {| sessions := fun _ =>
       {| started := false; closed := false; stdout_taken := false;
          remote_stdout := out; exit_error := None |};
     trace := [] |}.

(** The lines that the handler was called with, in order. *)
Definition handler_lines (evs : list Event) : list (list byte) :=
  omap (fun e => match e with Handler line => Some line | _ => None end) evs.

(** The signals that were sent. *)
Definition signals (evs : list Event) : list Signal :=
  omap (fun e => match e with
                 | Transport _ (CallSignal sig) => Some sig
                 | _ => None
                 end) evs.

Section WithTransport.
Context {S : Type} (T : SessionOps S).

(** An operation, with its output dropped. *)
Definition perform (c : t) (op : Operation) : M (S := S) (option error) :=
  match op with
  | OpRun => Run T c
  | OpOutput => fun w => let (r, w1) := Output T c w in (r.2, w1)
  | OpCombinedOutput => fun w => let (r, w1) := CombinedOutput T c w in (r.2, w1)
  | OpStart => Start T c
  | OpOutputPipe fn => OutputPipe T c fn
  end.

(** [m] only adds events to the trace. *)
Definition grows {A} (m : M (S := S) A) : Prop :=
  forall w, exists evs, trace (m w).2 = (trace w ++ evs)%list.

(** [m] adds at least one event. *)
Definition acts {A} (m : M (S := S) A) : Prop :=
  forall w, exists evs, evs <> [] /\ trace (m w).2 = (trace w ++ evs)%list.

Lemma acts_grows {A} (m : M A) : acts m -> grows m.
Proof. intros H w. destruct (H w) as (evs & _ & E). now exists evs. Qed.

Lemma grows_ret {A} (a : A) : grows (ret a).
Proof. intros w. exists []. simpl. now rewrite app_nil_r. Qed.

Lemma acts_transport {A} p c (op : S -> A * S) : acts (transport p c op).
Proof.
  intros w. exists [Transport p c]. split; [discriminate |].
  unfold transport. now destruct (op (sessions w p)).
Qed.

Lemma acts_emit e : acts (emit (S := S) e).
Proof. intros w. exists [e]. split; [discriminate | reflexivity]. Qed.

Lemma grows_bind {A B} (m : M A) (k : A -> M B) :
  grows m -> (forall a, grows (k a)) -> grows (bind m k).
Proof.
  intros Hm Hk w. unfold bind. destruct (Hm w) as [e1 E1].
  destruct (m w) as [a w1]. destruct (Hk a w1) as [e2 E2]. simpl in *.
  exists (e1 ++ e2)%list. now rewrite E2, E1, app_assoc.
Qed.

Lemma acts_bind {A B} (m : M A) (k : A -> M B) :
  acts m -> (forall a, grows (k a)) -> acts (bind m k).
Proof.
  intros Hm Hk w. unfold bind. destruct (Hm w) as (e1 & Hne & E1).
  destruct (m w) as [a w1]. destruct (Hk a w1) as [e2 E2]. simpl in *.
  exists (e1 ++ e2)%list. split.
  - destruct e1; [contradiction | discriminate].
  - now rewrite E2, E1, app_assoc.
Qed.

Lemma acts_run_callback p cb : acts (run_callback T p cb).
Proof.
  destruct cb; simpl; try apply acts_transport.
  apply acts_bind; [apply acts_transport | intros; apply grows_ret].
Qed.

Lemma acts_execute c p cb : acts (execute T c p cb).
Proof.
  unfold execute, executeWithCtx. destruct (ctx c) as [cx |].
  - destruct (ctx_case_chosen (race cx)); [| apply acts_run_callback].
    apply acts_bind; [apply acts_emit |]. intros _.
    apply grows_bind; [apply acts_grows, acts_transport | intros; apply grows_ret].
  - apply acts_run_callback.
Qed.

Lemma grows_readLoop fuel fn seen s : grows (readLoop (S := S) fuel fn seen s).
Proof.
  revert seen s. induction fuel as [| fuel IH]; intros seen s; simpl.
  - apply grows_ret.
  - destruct (bufio.ReadLine bufio.defaultBufSize s) as [line isPrefix rest |].
    + apply grows_bind; [apply acts_grows, acts_emit |]. intros _.
      destruct (fn seen line); [apply grows_ret | apply IH].
    + apply grows_ret.
Qed.

Lemma grows_OutputPipe_read p fn : grows (OutputPipe_read T p fn).
Proof.
  intros w. apply (grows_bind (readLoop _ _ _ _)); [apply grows_readLoop |].
  intros [err | |]; try apply grows_ret; apply acts_grows, acts_transport.
Qed.

Lemma acts_OutputPipe_body c p fn : acts (OutputPipe_body T c p fn).
Proof.
  unfold OutputPipe_body. apply acts_bind; [apply acts_transport |].
  intros [e |]; [apply grows_ret |].
  apply grows_bind; [apply acts_grows, acts_transport |].
  intros [e |]; [apply grows_ret |].
  apply grows_OutputPipe_read.
Qed.

(** An operation body followed by the deferred [Close]. *)
Lemma acts_then_Close {A B} (body : M A) (f : A -> B) p w :
  acts body ->
  exists evs, evs <> [] /\
    trace (bind body (fun r => bind (deferred_Close T p) (fun _ => ret (f r))) w).2
    = (trace w ++ evs ++ [Transport p CallClose])%list.
Proof.
  intros Hb. destruct (Hb w) as (evs & Hne & E). exists evs. split; [exact Hne |].
  unfold bind, deferred_Close, bind, transport, ret.
  destruct (body w) as [r w1]. simpl in *.
  destruct (s_Close T (sessions w1 p)). simpl. now rewrite E, app_assoc.
Qed.

(** On a command without a session every operation returns
    [ErrNilSession] and touches nothing. *)
Lemma perform_nil_session c op w :
  session c = None -> perform c op w = (Some ErrNilSession, w).
Proof.
  intros Hnil.
  destruct op; simpl; unfold Run, Output, CombinedOutput, Start, OutputPipe;
    now rewrite Hnil.
Qed.

(** On a command with a session every operation calls the transport and
    closes the session at the end, whatever happened to the session before. *)
Lemma perform_reaches_transport c op p w :
  session c = Some p ->
  exists evs, evs <> [] /\
    trace (perform c op w).2 = (trace w ++ evs ++ [Transport p CallClose])%list.
Proof.
  intros Hp. destruct op; simpl.
  - unfold Run. rewrite Hp. apply (acts_then_Close _ snd), acts_execute.
  - unfold Output. rewrite Hp.
    destruct (acts_then_Close (execute T c p (OutputCallback (String c))) id p w
                (acts_execute _ _ _)) as (evs & Hne & E).
    exists evs. split; [exact Hne |]. unfold id in E.
    now destruct (bind _ _ w).
  - unfold CombinedOutput. rewrite Hp.
    destruct (acts_then_Close (execute T c p (CombinedOutputCallback (String c))) id p w
                (acts_execute _ _ _)) as (evs & Hne & E).
    exists evs. split; [exact Hne |]. unfold id in E.
    now destruct (bind _ _ w).
  - unfold Start. rewrite Hp. apply (acts_then_Close _ id), acts_transport.
  - unfold OutputPipe. rewrite Hp. apply (acts_then_Close _ id), acts_OutputPipe_body.
Qed.

(** C1, amended.  An operation that uses up the session returns
    [ErrNilSession], without any transport call, when the session pointer
    of the command is [nil].  No operation clears the pointer, so on a
    command that has a session, an operation invoked after an earlier one
    has completed calls the transport again and closes the session again. *)
Theorem second_operation c op1 op2 w :
  let w1 := (perform c op1 w).2 in
  match session c with
  | None => perform c op2 w1 = (Some ErrNilSession, w1)
  | Some p =>
      exists evs, evs <> [] /\
        trace (perform c op2 w1).2 = (trace w1 ++ evs ++ [Transport p CallClose])%list
  end.
Proof.
  intros w1. destruct (session c) as [p |] eqn:Hs.
  - now apply perform_reaches_transport.
  - now apply perform_nil_session.
Qed.

End WithTransport.

(** C1 as stated fails: [Run] completes, and a second [Run] on the same
    command calls the transport and returns the error of the transport, not
    [ErrNilSession]. *)
Lemma second_Run_counterexample :
  let c := newCommand (Some 0) "echo" ["hi"] in
  let first := Run example_transport c (example_world []) in
  let second := Run example_transport c first.2 in
  first.1 = None /\
  second.1 = Some (ErrSSH "ssh: session already started") /\
  second.1 <> Some ErrNilSession /\
  trace second.2
  = (trace first.2 ++ [Transport 0 (CallRun "echo hi"); Transport 0 CallClose])%list.
Proof.
  cbv zeta. repeat split. discriminate.
Qed.

(** The same command without its context. *)
Definition without_ctx (c : t) : t :=
  {| Path := Path c; Args := Args c; session := session c; ctx := None |}.

(** The lines that the handler is called with, and the error that ends
    the delivery, when the reader produces [lines]. *)
Fixpoint deliver (fn : LoggingFunc) (seen lines : list (list byte))
  : list (list byte) * option error :=
  match lines with
  | [] => ([], None)
  | line :: rest =>
      match fn seen line with
      | Some err => ([line], Some err)
      | None =>
          let (d, r) := deliver fn (seen ++ [line])%list rest in (line :: d, r)
      end
  end.

Definition add_events {S} (w : World S) (evs : list Event) : World S :=
  {| sessions := sessions w; trace := (trace w ++ evs)%list |}.

Section Cancellation.
Context {S : Type} (T : SessionOps S).

(** [Start] and [OutputPipe] never read the context of the command. *)
Lemma Start_ignores_ctx c : Start T c = Start T (without_ctx c).
Proof. reflexivity. Qed.

Lemma OutputPipe_ignores_ctx c fn : OutputPipe T c fn = OutputPipe T (without_ctx c) fn.
Proof. reflexivity. Qed.

(** [Run], [Output] and [CombinedOutput] go through [execute]: when the
    context is done before the remote call has returned, the session gets
    [SIGINT], the result is the error of the context without output, and
    the result of the remote call is not waited for. *)
Lemma execute_cancelled c p cx cb w :
  ctx c = Some cx -> race cx = CtxFirst ->
  execute T c p cb w
  = (([], Some (ErrContext (ctx_Err cx))),
     {| sessions := <[p := (s_Signal T SIGINT (sessions w p)).2]> (sessions w);
        trace := (trace w ++ [InFlight p (call_of cb);
                              Transport p (CallSignal SIGINT)])%list |}).
Proof.
  intros Hc Hr. unfold execute, executeWithCtx. rewrite Hc, Hr. simpl.
  unfold bind, emit, transport, ret. simpl.
  destruct (s_Signal T SIGINT (sessions w p)). simpl. now rewrite <- app_assoc.
Qed.

(** The result of an operation body followed by the deferred [Close]. *)
Lemma then_Close_result {A B} (body : M A) (f : A -> B) p (w : World S) r w1 :
  body w = (r, w1) ->
  bind body (fun r => bind (deferred_Close T p) (fun _ => ret (f r))) w
  = (f r, {| sessions := <[p := (s_Close T (sessions w1 p)).2]> (sessions w1);
             trace := (trace w1 ++ [Transport p CallClose])%list |}).
Proof.
  intros E. unfold bind, deferred_Close, bind, transport, ret. rewrite E.
  now destruct (s_Close T (sessions w1 p)).
Qed.

Lemma Output_cancelled c p cx w :
  session c = Some p -> ctx c = Some cx -> race cx = CtxFirst ->
  (Output T c w).1 = ([], Some (ErrContext (ctx_Err cx))) /\
  trace (Output T c w).2
  = (trace w ++ [InFlight p (CallOutput (String c));
                 Transport p (CallSignal SIGINT); Transport p CallClose])%list.
Proof.
  intros Hp Hc Hr.
  pose proof (then_Close_result _ (fun r => r) p w _ _
                (execute_cancelled c p cx (OutputCallback (String c)) w Hc Hr)) as E.
  cbv beta in E. unfold Output. rewrite Hp, E. simpl. now rewrite <- app_assoc.
Qed.

Lemma CombinedOutput_cancelled c p cx w :
  session c = Some p -> ctx c = Some cx -> race cx = CtxFirst ->
  (CombinedOutput T c w).1 = ([], Some (ErrContext (ctx_Err cx))) /\
  trace (CombinedOutput T c w).2
  = (trace w ++ [InFlight p (CallCombinedOutput (String c));
                 Transport p (CallSignal SIGINT); Transport p CallClose])%list.
Proof.
  intros Hp Hc Hr.
  pose proof (then_Close_result _ (fun r => r) p w _ _
                (execute_cancelled c p cx (CombinedOutputCallback (String c)) w Hc Hr))
    as E.
  cbv beta in E. unfold CombinedOutput. rewrite Hp, E. simpl. now rewrite <- app_assoc.
Qed.

Lemma Run_cancelled c p cx w :
  session c = Some p -> ctx c = Some cx -> race cx = CtxFirst ->
  (Run T c w).1 = Some (ErrContext (ctx_Err cx)) /\
  trace (Run T c w).2
  = (trace w ++ [InFlight p (CallRun (String c));
                 Transport p (CallSignal SIGINT); Transport p CallClose])%list.
Proof.
  intros Hp Hc Hr.
  pose proof (then_Close_result _ snd p w _ _
                (execute_cancelled c p cx (RunCallback (String c)) w Hc Hr)) as E.
  unfold Run. rewrite Hp, E. simpl. now rewrite <- app_assoc.
Qed.

End Cancellation.

Section Delivery.
Context {S : Type} (T : SessionOps S).

Lemma add_events_nil (w : World S) : add_events w [] = w.
Proof. destruct w. unfold add_events. simpl. now rewrite app_nil_r. Qed.

(** The read loop calls the handler once for every line that [ReadLine]
    returns, in order, up to the first line on which the handler fails. *)
Lemma readLoop_deliver fuel fn seen s (w : World S) :
  (length s < fuel)%nat ->
  readLoop fuel fn seen s w
  = (match (deliver fn seen (bufioSpec.read_lines fuel s)).2 with
     | Some err => Returned err
     | None => Broke
     end,
     add_events w (map Handler (deliver fn seen (bufioSpec.read_lines fuel s)).1)).
Proof.
  revert seen s w. induction fuel as [| fuel IH]; intros seen s w Hlen; [lia |].
  simpl. destruct (bufio.ReadLine bufio.defaultBufSize s)
    as [line isPrefix rest |] eqn:Hread.
  - apply bufioSpec.ReadLine_consumes in Hread; [| unfold bufio.defaultBufSize; lia].
    simpl. unfold bind, emit. simpl. destruct (fn seen line) as [err |].
    + reflexivity.
    + rewrite IH by lia.
      destruct (deliver fn (seen ++ [line]) (bufioSpec.read_lines fuel rest)) as [d r].
      simpl. unfold add_events. simpl. now rewrite <- app_assoc.
  - simpl. now rewrite add_events_nil.
Qed.

(** Once the command has started, [OutputPipe] hands the lines of the
    reader to the handler; it returns the first error of the handler at
    once, and otherwise the result of waiting for the remote exit. *)
Lemma OutputPipe_read_deliver p fn (w : World S) :
  let out := s_stdout T (sessions w p) in
  let d := deliver fn [] (bufioSpec.read_lines (Datatypes.S (length out)) out) in
  OutputPipe_read T p fn w
  = match d.2 with
    | Some err => (Some err, add_events w (map Handler d.1))
    | None => transport p CallWait (s_Wait T) (add_events w (map Handler d.1))
    end.
Proof.
  cbv zeta. unfold OutputPipe_read, bind. rewrite readLoop_deliver by lia.
  now destruct (deliver _ _ _) as [d [err |]].
Qed.

End Delivery.

(** C6: the code at a failing input.  A command made with a context runs
    [OutputPipe]; the context is done before the remote process has
    finished.  No signal is sent, every line reaches the handler, and the
    result is that of the wait, not the error of the context. *)
Theorem OutputPipe_context_done_not_interrupted :
  let cx := {| ctx_Err := Canceled; race := CtxFirst |} in
  let out := [Byte.x31; Byte.x0a; Byte.x32; Byte.x0a] in
  let c := {| Path := "tail"; Args := ["-f"; "log"]; session := Some 0;
              ctx := Some cx |} in
  let r := OutputPipe example_transport c (fun _ _ => None) (example_world out) in
  newCommandContext (Some cx) (Some 0) "tail" ["-f"; "log"] = Some c /\
  r.1 = None /\
  r.1 <> Some (ErrContext Canceled) /\
  signals (trace r.2) = [] /\
  handler_lines (trace r.2) = [[Byte.x31]; [Byte.x32]].
Proof.
  cbv zeta. repeat split. discriminate.
Qed.

(** C7: the code at a failing input.  The remote process writes one line
    of 4097 bytes and a newline.  The handler is called twice for that one
    line, with its first 4096 bytes and with the last byte. *)
Theorem OutputPipe_long_line_delivered_in_pieces :
  let line := replicate 4097 Byte.x61 in
  let c := newCommand (Some 0) "cat" ["big"] in
  let r := OutputPipe example_transport c (fun _ _ => None)
             (example_world (line ++ [Byte.x0a])%list) in
  bufio.index_newline 4098 (line ++ [Byte.x0a])%list = Some 4097%nat /\
  r.1 = None /\
  handler_lines (trace r.2) = [replicate 4096 Byte.x61; [Byte.x61]].
Proof.
  cbv zeta. repeat split; vm_compute; reflexivity.
Qed.

End CmdSpec.

(** * Further properties of the credential resolver *)

Module AuthExtra.

Lemma Agent_nil_error env a : Auth.Agent env = (a, None) -> exists m, a = Some m.
Proof.
  unfold Auth.Agent. destruct (negb (Auth.HasAgent env)); [discriminate |].
  destruct (Auth.DialUnix env _); [discriminate |]. intros [= <-]. eauto.
Qed.

Lemma Key_nil_error env sshkey passphrase a :
  Auth.Key env sshkey passphrase = (a, None) -> exists m, a = Some m.
Proof.
  unfold Auth.Key. destruct (Auth.GetSigner env sshkey passphrase) as [sg [e |]];
    [discriminate |]. intros [= <-]. eauto.
Qed.

(** X1.  The errors of the agent and of the key file never leave [Auth]: it
    returns a method with a [nil] error, or no method with the error "no
    auth method". *)
Theorem Auth_method_or_no_auth_method env opts :
  (exists m, Auth.Auth env opts = (Some m, None)) \/
  Auth.Auth env opts = (None, Some ErrNoAuthMethod).
Proof.
  unfold Auth.Auth.
  assert (Hrest :
    (exists m,
       match (if bool_decide (Options.Key opts <> "")
              then Some (Auth.Key env (Options.Key opts) (Options.KeyPassphrase opts))
              else None) with
       | Some (auth, None) => (auth, None)
       | _ => if bool_decide (Options.Password opts <> "")
              then (Some (Auth.Password (Options.Password opts)), None)
              else (None, Some ErrNoAuthMethod)
       end = (Some m, None)) \/
    match (if bool_decide (Options.Key opts <> "")
           then Some (Auth.Key env (Options.Key opts) (Options.KeyPassphrase opts))
           else None) with
    | Some (auth, None) => (auth, None)
    | _ => if bool_decide (Options.Password opts <> "")
           then (Some (Auth.Password (Options.Password opts)), None)
           else (None, Some ErrNoAuthMethod)
    end = (None, Some ErrNoAuthMethod)).
  { destruct (bool_decide (Options.Key opts <> "")).
    - destruct (Auth.Key env _ _) as [k [ek |]] eqn:Hk.
      + destruct (bool_decide (Options.Password opts <> "")); [left; eauto | now right].
      + destruct (Key_nil_error _ _ _ _ Hk) as [m ->]. left. eauto.
    - destruct (bool_decide (Options.Password opts <> "")); [left; eauto | now right]. }
  destruct (Options.UseAgent opts && Auth.HasAgent env); [| exact Hrest].
  destruct (Auth.Agent env) as [a [ea |]] eqn:Ha; [exact Hrest |].
  destruct (Agent_nil_error _ _ Ha) as [m ->]. left. eauto.
Qed.

(** X2.  The agent comes first: when it is requested, announced and reachable,
    [Auth] returns the agent method whatever key and password are set. *)
Theorem Auth_agent_first env opts :
  Options.UseAgent opts = true ->
  Auth.Getenv env "SSH_AUTH_SOCK" <> "" ->
  Auth.DialUnix env (Auth.Getenv env "SSH_AUTH_SOCK") = None ->
  Auth.Auth env opts
  = (Some (Auth.PublicKeysCallback (Auth.Getenv env "SSH_AUTH_SOCK")), None).
Proof.
  intros Hu Hs Hd. unfold Auth.Auth, Auth.Agent, Auth.HasAgent.
  rewrite Hu, (bool_decide_eq_true_2 _ Hs). simpl. now rewrite Hd.
Qed.

Lemma Auth_agent_first_witness :
  Auth.Auth (example_env "/run/agent.sock") agent_key_password_options
  = (Some (Auth.PublicKeysCallback "/run/agent.sock"), None).
Proof.
  apply (Auth_agent_first (example_env "/run/agent.sock") agent_key_password_options);
    [reflexivity | discriminate | reflexivity].
Defined.

(** X3.  The key comes before the password: when the agent step yields no
    method and the configured key loads, [Auth] returns the public-key
    method of that key and does not look at the password. *)
Theorem Auth_key_before_password env opts signer :
  Options.UseAgent opts && Auth.HasAgent env = false \/ (Auth.Agent env).2 <> None ->
  Options.Key opts <> "" ->
  Auth.GetSigner env (Options.Key opts) (Options.KeyPassphrase opts) = (signer, None) ->
  Auth.Auth env opts = (Some (Auth.PublicKeys signer), None).
Proof.
  intros Hagent Hkey Hsigner. unfold Auth.Auth, Auth.Key.
  rewrite (bool_decide_eq_true_2 _ Hkey), Hsigner.
  destruct Hagent as [-> | Hne]; [reflexivity |].
  destruct (Options.UseAgent opts && Auth.HasAgent env); [| reflexivity].
  destruct (Auth.Agent env) as [a [e |]]; [reflexivity | now exfalso; apply Hne].
Qed.

Lemma Auth_key_before_password_witness :
  let opts := {| Options.Username := "root"; Options.Password := "secret";
                 Options.Key := "/home/u/.ssh/id_ed25519";
                 Options.KeyPassphrase := ""; Options.Addr := "example.org";
                 Options.Port := 22; Options.UseAgent := false;
                 Options.Timeout := DefaultTimeout |} in
  Auth.Auth (example_env "") opts
  = (Some (Auth.PublicKeys (Some {| Auth.signer_key := [Byte.x01] |})), None).
Proof.
  cbv zeta.
  apply (Auth_key_before_password (example_env ""));
    [left; reflexivity | discriminate | reflexivity].
Defined.

End AuthExtra.

(** * Further properties of the host trust store *)

Module KnownHostsExtra.
Import KnownHosts KnownHostsSpec.

Section WithNormalize.
Variable Normalize : string -> string.

Local Abbreviation VerifyKnownHost := (VerifyKnownHost Normalize).
Local Abbreviation AppendKnownHost := (AppendKnownHost Normalize).
Local Abbreviation AutoFixedHostKeyCallback := (AutoFixedHostKeyCallback Normalize).
Local Abbreviation appended_addresses := (appended_addresses Normalize).

(** X4.  [AppendKnownHost] only ever appends: whether it succeeds or fails,
    every file keeps the lines it had, in front of whatever was added. *)
Theorem AppendKnownHost_keeps_lines os fpath host remote key p entries :
  files os !! p = Some entries ->
  exists added,
    files (AppendKnownHost os fpath host remote key).2 !! p
    = Some (entries ++ added)%list.
Proof.
  intros Hp. unfold KnownHosts.AppendKnownHost, OpenFile, WriteString.
  assert (Hsame : exists added, files os !! p = Some (entries ++ added)%list)
    by (exists []; now rewrite app_nil_r).
  destruct (if bool_decide (fpath = "") then DefaultKnownHostsPath os
            else (fpath, None)) as [q [e |]]; [exact Hsame |].
  destruct (open_error os q); [exact Hsame |].
  destruct (files os !! q) as [old |] eqn:Hq; simpl.
  - destruct (write_error os q); [exact Hsame |]. simpl. rewrite Hq. simpl.
    destruct (decide (q = p)) as [-> | Hne].
    + rewrite lookup_insert_eq. rewrite Hp in Hq. injection Hq as <-. eauto.
    + now rewrite lookup_insert_ne.
  - assert (q <> p) by (intros ->; congruence).
    destruct (write_error os q); simpl.
    + exists []. rewrite app_nil_r. now rewrite lookup_insert_ne.
    + exists []. rewrite app_nil_r. now rewrite !lookup_insert_ne.
Qed.

(** X5.  The record that a successful [AppendKnownHost] writes is the last
    line of the file; it names the normalized remote address first, covers
    the normalized alias as well, and names no address twice. *)
Theorem AppendKnownHost_record os fpath host remote key os' :
  AppendKnownHost os fpath host remote key = (None, os') ->
  exists p old addresses,
    store_path os fpath = (p, None) /\
    files os' !! p = Some (old ++ [HostLine addresses key])%list /\
    head addresses = Some (Normalize remote) /\
    Normalize host ∈ addresses /\
    NoDup addresses.
Proof.
  intros Happ. apply AppendKnownHost_success in Happ as (p & Hp & _ & Hfiles).
  exists p, (default [] (files os !! p)), (appended_addresses host remote).
  split; [exact Hp |]. split; [rewrite Hfiles; apply lookup_insert_eq |].
  unfold KnownHostsSpec.appended_addresses. case_bool_decide as Hne.
  - split; [reflexivity |]. split; [set_solver |].
    apply NoDup_cons. split; [| apply NoDup_singleton].
    intros H%list_elem_of_singleton. congruence.
  - rewrite Hne. split; [reflexivity |]. split; [set_solver | apply NoDup_singleton].
Qed.

End WithNormalize.

Lemma AppendKnownHost_keeps_lines_witness :
  exists added,
    files (KnownHosts.AppendKnownHost id
             (example_os {[ "/kh" := [HostLine ["other.org"] key2] ]})
             "/kh" "example.org:22" "192.0.2.1:22" key1).2 !! "/kh"
    = Some ([HostLine ["other.org"] key2] ++ added)%list.
Proof.
  apply (AppendKnownHost_keeps_lines id
           (example_os {[ "/kh" := [HostLine ["other.org"] key2] ]})).
  reflexivity.
Defined.

Lemma AppendKnownHost_record_witness :
  exists p old addresses,
    store_path (example_os ∅) "/kh" = (p, None) /\
    files (KnownHosts.AppendKnownHost id (example_os ∅) "/kh" "example.org:22"
             "192.0.2.1:22" key1).2 !! p
    = Some (old ++ [HostLine addresses key1])%list /\
    head addresses = Some (id "192.0.2.1:22") /\
    id "example.org:22" ∈ addresses /\
    NoDup addresses.
Proof.
  apply (AppendKnownHost_record id (example_os ∅) "/kh" "example.org:22"
           "192.0.2.1:22" key1). reflexivity.
Defined.

Section TrustOnFirstUse.
Variable Normalize : string -> string.

Local Abbreviation VerifyKnownHost := (VerifyKnownHost Normalize).
Local Abbreviation AppendKnownHost := (AppendKnownHost Normalize).
Local Abbreviation AutoFixedHostKeyCallback := (AutoFixedHostKeyCallback Normalize).
Local Abbreviation appended_addresses := (appended_addresses Normalize).

(** The records of a well-formed store after a successful append: those
    it had, followed by the new one. *)
Lemma load_store_after_append os fpath host remote key os' :
  well_formed os fpath ->
  AppendKnownHost os fpath host remote key = (None, os') ->
  exists db,
    (load_store os fpath = (db, None) \/
     db = [] /\ exists p, store_path os fpath = (p, None) /\ files os !! p = None) /\
    load_store os' fpath = ((db ++ [(appended_addresses host remote, key)])%list, None).
Proof.
  intros Hwf Happ.
  apply AppendKnownHost_success in Happ as (p & Hp & Hhome & Hfiles).
  unfold well_formed in Hwf. rewrite Hp in Hwf. unfold load_store.
  replace (store_path os' fpath) with (p, None : option error)
    by (rewrite <- Hp; unfold store_path, DefaultKnownHostsPath; now rewrite Hhome).
  rewrite Hp, Hfiles, lookup_insert_eq.
  destruct (files os !! p) as [entries |] eqn:Hfile; simpl.
  - destruct Hwf as [db Hdb]. exists db. rewrite Hdb, (parse_app _ _ _ _ Hdb). auto.
  - exists []. split; [right; eauto | reflexivity].
Qed.

(** The address that is looked up is covered by the appended record. *)
Lemma matching_appended db host remote key :
  (matching Normalize (db ++ [(appended_addresses host remote, key)])
     (hostToCheck host remote)).*2
  = ((matching Normalize db (hostToCheck host remote)).*2 ++ [key])%list.
Proof.
  unfold matching. rewrite filter_app, fmap_app. f_equal.
  rewrite filter_cons_True; [reflexivity |].
  unfold line_match. simpl. apply bool_decide_eq_true_2.
  apply appended_addresses_cover.
Qed.

(** After [AutoFixedHostKeyCallback] has accepted a host on a well-formed
    store, the store holds the host with that key. *)
Lemma accepted_then_verified os host remote key os' :
  well_formed os "" ->
  AutoFixedHostKeyCallback os host remote key = (None, os') ->
  VerifyKnownHost os' "" host remote key = (true, None).
Proof.
  intros Hwf Hauto. unfold KnownHosts.AutoFixedHostKeyCallback in Hauto.
  destruct (VerifyKnownHost os "" host remote key) as [[|] [err |]] eqn:Hv.
  - discriminate.
  - now injection Hauto as <-.
  - destruct (load_store_after_append _ _ _ _ _ _ Hwf Hauto) as (db & _ & Hload).
    rewrite VerifyKnownHost_by_store, Hload. cbv zeta.
    rewrite matching_appended, bool_decide_eq_true_2; [reflexivity |].
    apply elem_of_app. right. apply list_elem_of_singleton. reflexivity.
  - destruct (load_store_after_append _ _ _ _ _ _ Hwf Hauto) as (db & _ & Hload).
    rewrite VerifyKnownHost_by_store, Hload. cbv zeta.
    rewrite matching_appended, bool_decide_eq_true_2; [reflexivity |].
    apply elem_of_app. right. apply list_elem_of_singleton. reflexivity.
Qed.



(** X8.  A store that does not parse pins nothing: [AutoFixedHostKeyCallback]
    then appends whatever key is presented, so two different keys for the
    same host are accepted one after the other. *)
Theorem AutoFixedHostKeyCallback_unparsable_store os p entries host remote key1 key2 :
  DefaultKnownHostsPath os = (p, None) ->
  files os !! p = Some entries ->
  parse entries = None ->
  open_error os p = None ->
  write_error os p = None ->
  exists os1 os2,
    AutoFixedHostKeyCallback os host remote key1 = (None, os1) /\
    AutoFixedHostKeyCallback os1 host remote key2 = (None, os2).
Proof.
  assert (Hparse : forall es extra, parse es = None -> parse (es ++ extra) = None).
  { induction es as [| [a k | raw] es IH]; intros extra; simpl; try discriminate.
    - destruct (parse es); [discriminate |]. intros _. now rewrite IH.
    - reflexivity. }
  assert (Hstep : forall o es key,
    DefaultKnownHostsPath o = (p, None) -> files o !! p = Some es ->
    parse es = None -> open_error o p = None -> write_error o p = None ->
    exists o1,
      AutoFixedHostKeyCallback o host remote key = (None, o1) /\
      DefaultKnownHostsPath o1 = (p, None) /\
      (exists es1, files o1 !! p = Some es1 /\ parse es1 = None) /\
      open_error o1 p = None /\ write_error o1 p = None).
  { intros o es key Hpath Hfile Hbad Hopen Hwrite.
    unfold KnownHosts.AutoFixedHostKeyCallback.
    rewrite VerifyKnownHost_by_store. unfold load_store, store_path.
    rewrite bool_decide_eq_true_2 by reflexivity. rewrite Hpath, Hfile, Hbad.
    unfold KnownHosts.AppendKnownHost, OpenFile, WriteString.
    rewrite bool_decide_eq_true_2 by reflexivity.
    rewrite Hpath, Hopen, Hfile. simpl. rewrite Hwrite. simpl.
    eexists. split; [reflexivity |]. simpl.
    split; [exact Hpath |]. split; [| auto].
    rewrite lookup_insert_eq, Hfile. simpl. eexists. split; [reflexivity |].
    now apply Hparse. }
  intros Hpath Hfile Hbad Hopen Hwrite.
  destruct (Hstep os entries key1 Hpath Hfile Hbad Hopen Hwrite)
    as (os1 & H1 & Hpath1 & (es1 & Hfile1 & Hbad1) & Hopen1 & Hwrite1).
  destruct (Hstep os1 es1 key2 Hpath1 Hfile1 Hbad1 Hopen1 Hwrite1) as (os2 & H2 & _).
  eauto.
Qed.


End TrustOnFirstUse.

(** A store at the default path of [example_os] whose only line does not
    parse. *)
Definition unparsable_os : OS :=
  example_os {[ "/home/u/.ssh/known_hosts" := [BadLine "not a known-hosts line"] ]}.



Lemma AutoFixedHostKeyCallback_unparsable_store_witness :
  exists os1 os2,
    AutoFixedHostKeyCallback id unparsable_os "example.org:22" "192.0.2.1:22" key1
    = (None, os1) /\
    AutoFixedHostKeyCallback id os1 "example.org:22" "192.0.2.1:22" key2 = (None, os2).
Proof.
  apply (AutoFixedHostKeyCallback_unparsable_store id unparsable_os
           "/home/u/.ssh/known_hosts" [BadLine "not a known-hosts line"]);
    reflexivity.
Defined.


End KnownHostsExtra.

(** * The package-level [Ping] (gosh.go) *)

Module Gosh.
Import Client.

Section WithTransport.
Context {S : Type} (T : ConnOps S).

(** [Ping]: the fields of [Options] that it does not set have Go's zero
    values; the deferred [cli.Close()] runs on the client as [cli.Ping()]
    left it, and its error is dropped. *)
Definition Ping (env : Auth.Env) (addr user password key : string) (port : Z)
    (w : World S) : option error * World S :=
  let port := if (port <? 1)%Z then DefaultPort else port in
  match NewInsecure env
          {| Options.Username := user; Options.Password := password;
             Options.Key := key; Options.KeyPassphrase := "";
             Options.Addr := addr; Options.Port := port;
             Options.UseAgent := false; Options.Timeout := 0 |} with
  | Err err => (Some err, w)
  | Ok cli =>
      match Client.Ping T cli w with
      | ((err, cli1), w1) => (err, (Close T cli1 w1).2)
      end
  end.

End WithTransport.
End Gosh.

(** * Further properties of the connection manager *)

Module ClientExtra.
Import Client.

Section WithTransport.
Context {S : Type} (T : ConnOps S).

(** What [Dial] returns and does, from the three steps of the handshake. *)
Lemma Dial_steps c w :
  let addr := JoinHostPort (Options.Addr (opts c)) (pretty (Options.Port (opts c))) in
  let log := (calls w ++ [CallDial DefaultProtocol addr])%list in
  Dial T c w =
  match key_exchange T DefaultProtocol addr (Options.Timeout (opts c)) (net w) with
  | (inr err, s1) => ((Some err, c), {| net := s1; os := os w; calls := log |})
  | (inl (remote, key), s1) =>
      match callback c (os w) addr remote key with
      | (Some err, os1) => ((Some err, c), {| net := s1; os := os1; calls := log |})
      | (None, os1) =>
          match userauth T (Options.Username (opts c)) [auth c] s1 with
          | (inr err, s2) => ((Some err, c), {| net := s2; os := os1; calls := log |})
          | (inl conn, s2) =>
              ((None, {| ssh_Client := Some conn; opts := opts c; auth := auth c;
                         callback := callback c |}),
               {| net := s2; os := os1; calls := log |})
          end
      end
  end.
Proof.
  cbv zeta. unfold Dial, dial, ssh_Dial, dial_config. simpl.
  destruct (key_exchange T _ _ _ _) as [[[remote key] | e] s1]; [| reflexivity].
  destruct (callback c _ _ _ _) as [[e |] os1]; [reflexivity |].
  now destruct (userauth T _ _ _) as [[conn | e] s2].
Qed.

Lemma Dial_error c w err c' w1 :
  Dial T c w = ((Some err, c'), w1) ->
  c' = c /\
  calls w1 = (calls w ++ [CallDial DefaultProtocol
                            (JoinHostPort (Options.Addr (opts c))
                               (pretty (Options.Port (opts c))))])%list.
Proof.
  rewrite Dial_steps. cbv zeta.
  destruct (key_exchange T _ _ _ _) as [[[remote key] | e] s1].
  - destruct (callback c _ _ _ _) as [[e |] os1].
    + intros [= _ <- <-]. auto.
    + destruct (userauth T _ _ _) as [[conn | e] s2]; [discriminate |].
      intros [= _ <- <-]. auto.
  - intros [= _ <- <-]. auto.
Qed.

(** A [Dial] that fails leaves the client as it was, whatever it held
    before, and has called the transport once. *)
Theorem Dial_failure_keeps_client c w err c' w1 :
  Dial T c w = ((Some err, c'), w1) ->
  c' = c /\
  calls w1 = (calls w ++ [CallDial DefaultProtocol
                            (JoinHostPort (Options.Addr (opts c))
                               (pretty (Options.Port (opts c))))])%list.
Proof. apply Dial_error. Qed.

(** X10.  On a client fresh from [New], [Close] after a failed [Dial] is a
    no-op that returns [nil]: there is nothing to close. *)
Theorem Close_after_failed_Dial env o c w err c' w1 :
  New env o = Ok c ->
  Dial T c w = ((Some err, c'), w1) ->
  Close T c' w1 = (None, w1).
Proof.
  intros Hnew Hdial. apply Dial_error in Hdial as [-> _].
  unfold New in Hnew. destruct (Auth.Auth env o) as [a [e |]]; [discriminate |].
  now injection Hnew as <-.
Qed.

(** A client from [New] or [NewInsecure] dials without looking at the
    trust store: whatever key the server presents, the store is the same
    afterwards, and the dial fails only with an error of the transport. *)
Theorem Dial_without_policy env o c w :
  New env o = Ok c \/ NewInsecure env o = Ok c ->
  os (Dial T c w).2 = os w /\
  forall err,
    (Dial T c w).1.1 = Some err ->
    let addr := JoinHostPort (Options.Addr o) (pretty (Options.Port o)) in
    let kex := key_exchange T DefaultProtocol addr (Options.Timeout o) (net w) in
    kex.1 = inr err \/
    (userauth T (Options.Username o) [auth c] kex.2).1 = inr err.
Proof.
  intros Hc.
  assert (Hcb : opts c = o /\ forall os0 h r k, callback c os0 h r k = (None, os0)).
  { unfold NewInsecure, New in Hc. destruct (Auth.Auth env o) as [a [e |]].
    - destruct Hc; discriminate.
    - destruct Hc as [[= <-] | [= <-]]; auto. }
  destruct Hcb as [Ho Hcb]. rewrite Dial_steps. cbv zeta. rewrite Ho.
  destruct (key_exchange T _ _ _ _) as [[[remote key] | e] s1] eqn:Hk; simpl.
  - rewrite Hcb. destruct (userauth T _ _ _) as [[conn | e] s2] eqn:Hu; simpl.
    + split; [reflexivity | discriminate].
    + split; [reflexivity |]. intros err [= <-]. now right.
  - split; [reflexivity |]. intros err [= <-]. now left.
Qed.

(** X11.  Trust on first use through [Dial]: with [AutoFixedHostKeyCallback]
    as the callback and a well-formed default store, a [Dial] that succeeds
    leaves a store in which the dialed address is known with the key that
    the server presented. *)
Theorem Dial_records_host_key Normalize c w c' w1 remote key s1 :
  callback c = KnownHosts.AutoFixedHostKeyCallback Normalize ->
  KnownHostsSpec.well_formed (os w) "" ->
  key_exchange T DefaultProtocol
    (JoinHostPort (Options.Addr (opts c)) (pretty (Options.Port (opts c))))
    (Options.Timeout (opts c)) (net w) = (inl (remote, key), s1) ->
  Dial T c w = ((None, c'), w1) ->
  KnownHosts.VerifyKnownHost Normalize (os w1) ""
    (JoinHostPort (Options.Addr (opts c)) (pretty (Options.Port (opts c))))
    remote key = (true, None).
Proof.
  intros Hcb Hwf Hkex. rewrite Dial_steps. cbv zeta. rewrite Hkex, Hcb.
  destruct (KnownHosts.AutoFixedHostKeyCallback Normalize (os w) _ remote key)
    as [[e |] os1] eqn:Hauto; [discriminate |].
  destruct (userauth T _ _ _) as [[conn | e] s2]; [| discriminate].
  intros [= _ <-]. simpl.
  now apply (KnownHostsExtra.accepted_then_verified Normalize (os w)).
Qed.


End WithTransport.

(** [NewDefault] looks at the trust store before it looks at the
    credentials: when the default store does not load, it fails with that
    error. *)
Theorem NewDefault_store_error Normalize kh env o db err :
  KnownHostsSpec.load_store kh "" = (db, Some err) ->
  NewDefault Normalize kh env o = Err err.
Proof.
  intros Hload. unfold NewDefault.
  pose proof (KnownHostsSpec.VerifyKnownHost_load Normalize kh "") as H.
  rewrite bool_decide_eq_false_2 in H by (intros Hne; now apply Hne).
  now rewrite H, Hload.
Qed.



(** A transport for examples on which no connection can be made. *)
Definition unreachable_transport : ConnOps unit :=
  {| key_exchange := fun _ _ _ s => (inr (ErrOS "dial tcp: connection refused"), s);
     userauth := fun _ _ s => (inr (ErrSSH "ssh: unable to authenticate"), s);
     conn_Close := fun _ s => (None, s) |}.

Definition unreachable_world : World unit :=
  {| net := tt; os := KnownHostsSpec.example_os ∅; calls := [] |}.

Definition example_client : t :=
  {| ssh_Client := None; opts := password_options "secret";
     auth := Some (Auth.PasswordMethod "secret");
     callback := fun os _ _ _ => (None, os) |}.

(** The client of the tests: made by [New], then given
    [AutoFixedHostKeyCallback]. *)
Definition tofu_client : t :=
  WithHostKeyCallback example_client (KnownHosts.AutoFixedHostKeyCallback id).


Lemma Dial_failure_keeps_client_witness :
  (Dial unreachable_transport example_client unreachable_world).1.2 = example_client /\
  calls (Dial unreachable_transport example_client unreachable_world).2
  = ([] ++ [CallDial DefaultProtocol
              (JoinHostPort (Options.Addr (opts example_client))
                 (pretty (Options.Port (opts example_client))))])%list.
Proof.
  apply (Dial_failure_keeps_client unreachable_transport example_client
           unreachable_world (ErrOS "dial tcp: connection refused")).
  reflexivity.
Defined.

Lemma Close_after_failed_Dial_witness :
  let d := Dial unreachable_transport example_client unreachable_world in
  Close unreachable_transport d.1.2 d.2 = (None, d.2).
Proof.
  apply (Close_after_failed_Dial unreachable_transport (example_env "")
           (password_options "secret") example_client unreachable_world
           (ErrOS "dial tcp: connection refused")); reflexivity.
Defined.

Lemma Dial_without_policy_witness :
  os (Dial unreachable_transport example_client unreachable_world).2
  = os unreachable_world.
Proof.
  apply (Dial_without_policy unreachable_transport (example_env "")
           (password_options "secret") example_client unreachable_world).
  left. reflexivity.
Defined.

Lemma Dial_records_host_key_witness :
  let T := ClientSpec.example_transport ClientSpec.example_key in
  KnownHosts.VerifyKnownHost id (os (Dial T tofu_client ClientSpec.example_world).2) ""
    (JoinHostPort (Options.Addr (opts tofu_client))
       (pretty (Options.Port (opts tofu_client))))
    "192.0.2.1:22" ClientSpec.example_key = (true, None).
Proof.
  intros T.
  apply (Dial_records_host_key T id tofu_client ClientSpec.example_world
           (Dial T tofu_client ClientSpec.example_world).1.2
           (Dial T tofu_client ClientSpec.example_world).2
           "192.0.2.1:22" ClientSpec.example_key []);
    [reflexivity | exact I | reflexivity | reflexivity].
Defined.


Lemma NewDefault_store_error_witness :
  NewDefault id (KnownHostsSpec.example_os ∅) (example_env "")
    (password_options "secret")
  = Err (ErrOS "open: no such file or directory").
Proof.
  apply (NewDefault_store_error id (KnownHostsSpec.example_os ∅) (example_env "")
           (password_options "secret") []). reflexivity.
Defined.


End ClientExtra.

(** * Further properties of the remote command *)

Module CmdExtra.
Import Cmd CmdSpec.

Lemma string_app_cons ch (a b : string) :
  String.String ch a +:+ b = String.String ch (a +:+ b).
Proof. reflexivity. Qed.

Lemma string_app_nil_r (a : string) : a +:+ "" = a.
Proof.
  induction a as [| ch a IH]; [reflexivity |]. now rewrite string_app_cons, IH.
Qed.

Lemma string_app_assoc (a b c : string) : (a +:+ b) +:+ c = a +:+ (b +:+ c).
Proof.
  induction a as [| ch a IH]; [reflexivity |]. now rewrite !string_app_cons, IH.
Qed.

Lemma String_fold args acc :
  fold_left (fun b a => b +:+ " " +:+ a) args acc
  = acc +:+ fold_right (fun a rest => " " +:+ a +:+ rest) "" args.
Proof.
  revert acc. induction args as [| a args IH]; intros acc; simpl.
  - now rewrite string_app_nil_r.
  - rewrite IH. now rewrite !string_app_assoc.
Qed.

(** X15.  [String] is the path and the arguments joined by single spaces. *)
Theorem String_joins_with_spaces c :
  String c = String.concat " " (Path c :: Args c).
Proof.
  unfold String. rewrite String_fold.
  generalize (Path c). induction (Args c) as [| a args IH]; intros path0; simpl.
  - apply string_app_nil_r.
  - do 2 f_equal. exact (IH a).
Qed.

(** X16.  Nothing is quoted: an argument that contains a space gives the same
    command line as the two arguments on either side of the space. *)
Theorem String_does_not_quote path a b rest s cx :
  String {| Path := path; Args := (a +:+ " " +:+ b) :: rest; session := s; ctx := cx |}
  = String {| Path := path; Args := a :: b :: rest; session := s; ctx := cx |}.
Proof.
  unfold String. simpl. f_equal. now rewrite !string_app_assoc.
Qed.

(** The name and the value of an entry are what stands before and after
    its first equals sign. *)
Lemma split_eq_join value k v :
  split_eq value = Some (k, v) -> value = k +:+ "=" +:+ v.
Proof.
  revert k. induction value as [| ch value IH]; intros k; simpl; [discriminate |].
  case_bool_decide as Hch.
  - intros [= <- <-]. now subst.
  - destruct (split_eq value) as [[k0 v0] |]; [| discriminate].
    intros [= <- <-]. simpl. now rewrite (IH k0 eq_refl).
Qed.

(** The entries of an environment that have the form [name=value]. *)
Definition env_pairs (env : list string) : list (string * string) :=
  omap split_eq env.


Section WithTransport.
Context {S : Type} (T : SessionOps S).



End WithTransport.


Example env_pairs_example :
  env_pairs ["TEST_ENV_NAME=GSSH"; "malformed"; "A=b=c"]
  = [("TEST_ENV_NAME", "GSSH"); ("A", "b=c")].
Proof. reflexivity. Qed.

Section Operations.
Context {S : Type} (T : SessionOps S).

(** [m] adds events, none of which closes the session at [p]. *)
Definition keeps_open {A} (p : nat) (m : M (S := S) A) : Prop :=
  forall w, exists evs,
    Forall (fun e => e <> Transport p CallClose) evs /\
    trace (m w).2 = (trace w ++ evs)%list.

Lemma keeps_open_ret {A} p (a : A) : keeps_open p (ret a).
Proof. intros w. exists []. simpl. now rewrite app_nil_r. Qed.

Lemma keeps_open_transport {A} p c (op : S -> A * S) :
  c <> CallClose -> keeps_open p (transport p c op).
Proof.
  intros Hc w. exists [Transport p c]. split.
  - apply Forall_singleton. congruence.
  - unfold transport. now destruct (op (sessions w p)).
Qed.

Lemma keeps_open_emit p e : e <> Transport p CallClose -> keeps_open p (emit (S := S) e).
Proof. intros He w. exists [e]. split; [now apply Forall_singleton | reflexivity]. Qed.

Lemma keeps_open_bind {A B} p (m : M A) (k : A -> M B) :
  keeps_open p m -> (forall a, keeps_open p (k a)) -> keeps_open p (bind m k).
Proof.
  intros Hm Hk w. unfold bind. destruct (Hm w) as (e1 & F1 & E1).
  destruct (m w) as [a w1]. destruct (Hk a w1) as (e2 & F2 & E2). simpl in *.
  exists (e1 ++ e2)%list. split; [now apply Forall_app | now rewrite E2, E1, app_assoc].
Qed.

Lemma keeps_open_execute c p cb : keeps_open p (execute T c p cb).
Proof.
  assert (Hrun : keeps_open p (run_callback T p cb)).
  { destruct cb; simpl; try (apply keeps_open_transport; discriminate).
    apply keeps_open_bind; [apply keeps_open_transport; discriminate |].
    intros; apply keeps_open_ret. }
  unfold execute, executeWithCtx. destruct (ctx c) as [cx |]; [| exact Hrun].
  destruct (ctx_case_chosen (race cx)); [| exact Hrun].
  apply keeps_open_bind; [apply keeps_open_emit; discriminate |]. intros _.
  apply keeps_open_bind; [apply keeps_open_transport; discriminate |].
  intros; apply keeps_open_ret.
Qed.

Lemma keeps_open_readLoop p fuel fn seen s :
  keeps_open p (readLoop (S := S) fuel fn seen s).
Proof.
  revert seen s. induction fuel as [| fuel IH]; intros seen s; simpl.
  - apply keeps_open_ret.
  - destruct (bufio.ReadLine bufio.defaultBufSize s) as [line isPrefix rest |].
    + apply keeps_open_bind; [apply keeps_open_emit; discriminate |]. intros _.
      destruct (fn seen line); [apply keeps_open_ret | apply IH].
    + apply keeps_open_ret.
Qed.

Lemma keeps_open_OutputPipe_body c p fn : keeps_open p (OutputPipe_body T c p fn).
Proof.
  unfold OutputPipe_body.
  apply keeps_open_bind; [apply keeps_open_transport; discriminate |].
  intros [e |]; [apply keeps_open_ret |].
  apply keeps_open_bind; [apply keeps_open_transport; discriminate |].
  intros [e |]; [apply keeps_open_ret |].
  intros w. apply (keeps_open_bind p (readLoop _ _ _ _)); [apply keeps_open_readLoop |].
  intros [err | |]; try apply keeps_open_ret; apply keeps_open_transport; discriminate.
Qed.

Lemma keeps_open_then_Close {A B} (body : M A) (f : A -> B) p (w : World S) :
  keeps_open p body ->
  exists evs,
    Forall (fun e => e <> Transport p CallClose) evs /\
    trace (bind body (fun r => bind (deferred_Close T p) (fun _ => ret (f r))) w).2
    = (trace w ++ evs ++ [Transport p CallClose])%list.
Proof.
  intros Hb. destruct (Hb w) as (evs & F & E). exists evs. split; [exact F |].
  unfold bind, deferred_Close, bind, transport, ret.
  destruct (body w) as [r w1]. simpl in *.
  destruct (s_Close T (sessions w1 p)). simpl. now rewrite E, app_assoc.
Qed.

(** X18.  Every operation on a command with a session closes that session
    exactly once, as its last step, on every path: success, an error of
    the transport, an error of the handler, a context that is done. *)
Theorem closes_session_exactly_once c op p (w : World S) :
  session c = Some p ->
  exists evs,
    Forall (fun e => e <> Transport p CallClose) evs /\
    trace (perform T c op w).2 = (trace w ++ evs ++ [Transport p CallClose])%list.
Proof.
  intros Hp. destruct op; simpl.
  - unfold Run. rewrite Hp. apply (keeps_open_then_Close _ snd), keeps_open_execute.
  - unfold Output. rewrite Hp.
    destruct (keeps_open_then_Close (execute T c p (OutputCallback (String c))) id p w
                (keeps_open_execute _ _ _)) as (evs & F & E).
    exists evs. split; [exact F |]. unfold id in E. now destruct (bind _ _ w).
  - unfold CombinedOutput. rewrite Hp.
    destruct (keeps_open_then_Close
                (execute T c p (CombinedOutputCallback (String c))) id p w
                (keeps_open_execute _ _ _)) as (evs & F & E).
    exists evs. split; [exact F |]. unfold id in E. now destruct (bind _ _ w).
  - unfold Start. rewrite Hp.
    apply (keeps_open_then_Close _ id), keeps_open_transport. discriminate.
  - unfold OutputPipe. rewrite Hp.
    apply (keeps_open_then_Close _ id), keeps_open_OutputPipe_body.
Qed.

(** X19.  A context that does not become done changes nothing: with it, every
    operation does and returns what it does and returns without a context. *)
Theorem context_not_done_changes_nothing c cx op (w : World S) :
  ctx c = Some cx ->
  race cx = ResultFirst ->
  perform T c op w = perform T (without_ctx c) op w.
Proof.
  intros Hc Hr.
  assert (Hex : forall p cb, execute T c p cb = execute T (without_ctx c) p cb).
  { intros p cb. unfold execute, executeWithCtx. simpl. now rewrite Hc, Hr. }
  destruct op; simpl; unfold Run, Output, CombinedOutput; simpl;
    destruct (session c); try reflexivity; unfold bind; now rewrite Hex.
Qed.

(** X20.  Without a context, [Run], [Output], [CombinedOutput] and [Start]
    return what the method of the session returns; what the deferred
    [Close] returns is never reported. *)
Theorem returns_what_the_session_returns c p (w : World S) :
  session c = Some p ->
  ctx c = None ->
  (Run T c w).1 = (s_Run T (String c) (sessions w p)).1 /\
  (Output T c w).1 = (s_Output T (String c) (sessions w p)).1 /\
  (CombinedOutput T c w).1 = (s_CombinedOutput T (String c) (sessions w p)).1 /\
  (Start T c w).1 = (s_Start T (String c) (sessions w p)).1.
Proof.
  intros Hp Hc.
  unfold Run, Output, CombinedOutput, Start, execute, run_callback.
  rewrite Hp, Hc. unfold bind, deferred_Close, bind, transport, ret.
  destruct (s_Run T _ _) as [r1 s1]. destruct (s_Output T _ _) as [r2 s2].
  destruct (s_CombinedOutput T _ _) as [r3 s3]. destruct (s_Start T _ _) as [r4 s4].
  simpl. repeat split; now destruct (s_Close T _).
Qed.

End Operations.

Lemma closes_session_exactly_once_witness :
  exists evs,
    Forall (fun e => e <> Transport 0 CallClose) evs /\
    trace (perform example_transport (newCommand (Some 0) "echo" ["hi"]) OpOutput
             (example_world [Byte.x68; Byte.x69; Byte.x0a])).2
    = ([] ++ evs ++ [Transport 0 CallClose])%list.
Proof.
  apply (closes_session_exactly_once example_transport
           (newCommand (Some 0) "echo" ["hi"]) OpOutput 0). reflexivity.
Defined.

Lemma context_not_done_changes_nothing_witness :
  let cx := {| ctx_Err := DeadlineExceeded; race := ResultFirst |} in
  let c := {| Path := "echo"; Args := ["hi"]; session := Some 0; ctx := Some cx |} in
  perform example_transport c OpRun (example_world [])
  = perform example_transport (without_ctx c) OpRun (example_world []).
Proof.
  intros cx c.
  apply (context_not_done_changes_nothing example_transport c cx); reflexivity.
Defined.

Lemma returns_what_the_session_returns_witness :
  let c := newCommand (Some 0) "echo" ["hi"] in
  let w := example_world [Byte.x68; Byte.x69; Byte.x0a] in
  (Run example_transport c w).1 = (s_Run example_transport (String c) (sessions w 0)).1 /\
  (Output example_transport c w).1
  = (s_Output example_transport (String c) (sessions w 0)).1 /\
  (CombinedOutput example_transport c w).1
  = (s_CombinedOutput example_transport (String c) (sessions w 0)).1 /\
  (Start example_transport c w).1
  = (s_Start example_transport (String c) (sessions w 0)).1.
Proof.
  intros c w.
  apply (returns_what_the_session_returns example_transport c 0 w); reflexivity.
Defined.

End CmdExtra.

(** * Further properties of the line reader *)

Module bufioExtra.
Import bufio bufioSpec.

Definition newline_free (l : list byte) : Prop :=
  Forall (fun b => is_newline b = false) l.

(** A line that fits the buffer: no newline inside, shorter than the buffer. *)
Definition short_line (l : list byte) : Prop :=
  newline_free l /\ (length l < defaultBufSize)%nat.

(** The bytes of [ls], each line followed by a newline. *)
Definition unlines (ls : list (list byte)) : list byte :=
  concat (map (fun l => l ++ [Byte.x0a])%list ls).

Lemma index_newline_here n l rest :
  newline_free l -> (length l < n)%nat ->
  index_newline n (l ++ Byte.x0a :: rest) = Some (length l).
Proof.
  revert n. induction l as [| b l IH]; intros n F Hn; simpl in Hn.
  - destruct n; [lia | reflexivity].
  - destruct n; [lia |]. inversion F as [| ? ? Hb F']; subst. simpl.
    rewrite Hb, IH; [reflexivity | assumption | lia].
Qed.

Lemma index_newline_none n s :
  newline_free (take n s) -> index_newline n s = None.
Proof.
  revert s. induction n as [| n IH]; intros [| b s] F; simpl; try reflexivity.
  simpl in F. inversion F as [| ? ? Hb F']; subst. now rewrite Hb, IH.
Qed.

Lemma ReadLine_short size l rest :
  newline_free l -> (length l < size)%nat ->
  ReadLine size (l ++ Byte.x0a :: rest) = Line (strip_cr l) false rest.
Proof.
  intros F Hl. unfold ReadLine. rewrite index_newline_here by assumption.
  rewrite take_app_length. f_equal.
  rewrite drop_app_ge by lia. now replace (S (length l) - length l)%nat with 1%nat by lia.
Qed.

Lemma ReadLine_full size s :
  newline_free (take size s) -> (size <= length s)%nat ->
  exists k, (size - 1 <= k <= size)%nat /\
            ReadLine size s = Line (take k s) true (drop k s).
Proof.
  intros F Hs. unfold ReadLine. rewrite index_newline_none by assumption.
  apply Nat.leb_le in Hs. rewrite Hs.
  destruct (ends_with_cr (take size s)).
  - exists (size - 1)%nat. split; [lia | reflexivity].
  - exists size. split; [lia | reflexivity].
Qed.

Lemma ReadLine_error size s : ReadLine size s = ReadError -> s = [].
Proof.
  unfold ReadLine. destruct (index_newline size s); [discriminate |].
  destruct (size <=? length s)%nat; [destruct (ends_with_cr _); discriminate |].
  now destruct s.
Qed.

Lemma read_lines_S fuel s :
  read_lines (S fuel) s
  = match ReadLine defaultBufSize s with
    | ReadError => []
    | Line line _ rest => line :: read_lines fuel rest
    end.
Proof. reflexivity. Qed.

Lemma ReadLine_nil : ReadLine defaultBufSize [] = ReadError.
Proof. reflexivity. Qed.

Lemma length_unlines ls : (length ls <= length (unlines ls))%nat.
Proof.
  induction ls as [| l ls IH]; [reflexivity |].
  unfold unlines in *. simpl. rewrite !length_app. simpl. lia.
Qed.

(** Reading lines that fit the buffer gives the lines back, one per call,
    without the newline and without a carriage return before it. *)
Lemma read_lines_unlines fuel ls :
  Forall short_line ls ->
  (length ls <= fuel)%nat ->
  read_lines fuel (unlines ls) = map strip_cr ls.
Proof.
  revert fuel. induction ls as [| l ls IH]; intros fuel F Hf.
  - destruct fuel; [reflexivity |]. rewrite read_lines_S.
    change (unlines []) with (@nil byte). now rewrite ReadLine_nil.
  - destruct fuel; [simpl in Hf; lia |].
    inversion F as [| ? ? [Hn Hl] F']; subst.
    rewrite read_lines_S.
    change (unlines (l :: ls)) with ((l ++ [Byte.x0a]) ++ unlines ls)%list.
    rewrite <- app_assoc. change ([Byte.x0a] ++ unlines ls)%list
      with (Byte.x0a :: unlines ls).
    rewrite ReadLine_short by assumption.
    simpl. f_equal. apply IH; [assumption | simpl in Hf; lia].
Qed.

End bufioExtra.

(** * Further properties of [OutputPipe] *)

Module OutputPipeExtra.
Import Cmd CmdSpec bufio bufioSpec bufioExtra.

Lemma handler_lines_app evs1 evs2 :
  handler_lines (evs1 ++ evs2) = (handler_lines evs1 ++ handler_lines evs2)%list.
Proof. apply omap_app. Qed.

Lemma handler_lines_Handler lines : handler_lines (map Handler lines) = lines.
Proof. induction lines as [| l lines IH]; simpl; [reflexivity | now f_equal]. Qed.

(** A handler that accepts the lines of [lines] gets all of them. *)
Lemma deliver_accepted fn seen lines :
  (forall i line, lines !! i = Some line -> fn (seen ++ take i lines)%list line = None) ->
  deliver fn seen lines = (lines, None).
Proof.
  revert seen. induction lines as [| l lines IH]; intros seen H; simpl; [reflexivity |].
  pose proof (H 0%nat l eq_refl) as H0. simpl in H0. rewrite app_nil_r in H0.
  rewrite H0, IH; [reflexivity |].
  intros i line Hi. specialize (H (Datatypes.S i) line Hi). simpl in H.
  now rewrite <- app_assoc.
Qed.

(** A handler that accepts the lines of [before] and fails on the next
    line gets no line after it. *)
Lemma deliver_rejected fn seen before bad after err :
  (forall i line, before !! i = Some line -> fn (seen ++ take i before)%list line = None) ->
  fn (seen ++ before)%list bad = Some err ->
  deliver fn seen (before ++ bad :: after) = ((before ++ [bad])%list, Some err).
Proof.
  revert seen. induction before as [| l before IH]; intros seen H Hbad; simpl.
  - rewrite app_nil_r in Hbad. now rewrite Hbad.
  - pose proof (H 0%nat l eq_refl) as H0. simpl in H0. rewrite app_nil_r in H0.
    rewrite H0, IH; [reflexivity | | now rewrite <- app_assoc].
    intros i line Hi. specialize (H (Datatypes.S i) line Hi). simpl in H.
    now rewrite <- app_assoc.
Qed.

Section Piping.
Context {S : Type} (T : SessionOps S).

(** [OutputPipe] once [StdoutPipe] and [Start] have succeeded. *)
Lemma OutputPipe_started c p fn (w : World S) s1 s2 :
  session c = Some p ->
  s_StdoutPipe T (sessions w p) = (None, s1) ->
  s_Start T (String c) s1 = (None, s2) ->
  let out := s_stdout T s2 in
  let d := deliver fn [] (read_lines (Datatypes.S (length out)) out) in
  (OutputPipe T c fn w).1
  = match d.2 with Some err => Some err | None => (s_Wait T s2).1 end /\
  trace (OutputPipe T c fn w).2
  = (trace w ++ [Transport p CallStdoutPipe; Transport p (CallStart (String c))]
       ++ map Handler d.1
       ++ match d.2 with Some _ => [] | None => [Transport p CallWait] end
       ++ [Transport p CallClose])%list.
Proof.
  intros Hp H1 H2 out d.
  assert (Hbody : exists w1,
    OutputPipe_body T c p fn w
    = (match d.2 with Some err => Some err | None => (s_Wait T s2).1 end, w1) /\
    trace w1
    = (trace w ++ [Transport p CallStdoutPipe; Transport p (CallStart (String c))]
         ++ map Handler d.1
         ++ match d.2 with Some _ => [] | None => [Transport p CallWait] end)%list).
  { set (w2 := {| sessions := <[p := s2]> (<[p := s1]> (sessions w));
                  trace := ((trace w ++ [Transport p CallStdoutPipe])
                              ++ [Transport p (CallStart (String c))])%list |}).
    assert (Hs : sessions w2 p = s2) by apply fn_lookup_insert.
    assert (Hb : OutputPipe_body T c p fn w = OutputPipe_read T p fn w2).
    { unfold OutputPipe_body, bind, transport. rewrite H1.
      cbn [sessions trace]. now rewrite fn_lookup_insert, H2. }
    rewrite Hb, OutputPipe_read_deliver. cbv zeta. rewrite Hs. fold out. fold d.
    destruct d as [dl [err |]]; cbn [fst snd].
    - eexists. split; [reflexivity |]. cbn [add_events trace w2].
      rewrite app_nil_r, <- !app_assoc. reflexivity.
    - unfold transport. cbn [add_events sessions trace]. rewrite Hs.
      destruct (s_Wait T s2) as [r s3]. eexists. split; [reflexivity |].
      cbn [trace w2]. rewrite <- !app_assoc. reflexivity. }
  destruct Hbody as (w1 & Eb & Et).
  pose proof (then_Close_result T _ (fun r => r) p w _ _ Eb) as E. cbv beta in E.
  unfold OutputPipe. rewrite Hp, E. simpl. split; [reflexivity |].
  rewrite Et. now rewrite <- !app_assoc.
Qed.

(** X21.  Lines of the remote output that fit the buffer reach the handler
    once each, in order, without the newline and the carriage return
    before it; the session is then waited for and closed, and the result
    is that of the wait. *)
Theorem OutputPipe_delivers_each_line c p fn (w : World S) s1 s2 ls :
  session c = Some p ->
  s_StdoutPipe T (sessions w p) = (None, s1) ->
  s_Start T (String c) s1 = (None, s2) ->
  s_stdout T s2 = unlines ls ->
  Forall short_line ls ->
  (forall i line, map strip_cr ls !! i = Some line ->
                  fn (take i (map strip_cr ls)) line = None) ->
  (OutputPipe T c fn w).1 = (s_Wait T s2).1 /\
  trace (OutputPipe T c fn w).2
  = (trace w ++ [Transport p CallStdoutPipe; Transport p (CallStart (String c))]
       ++ map Handler (map strip_cr ls)
       ++ [Transport p CallWait; Transport p CallClose])%list.
Proof.
  intros Hp H1 H2 Hout Hshort Hfn.
  destruct (OutputPipe_started c p fn w s1 s2 Hp H1 H2) as [Er Et].
  rewrite Hout in Er, Et.
  rewrite read_lines_unlines in Er, Et
    by (try assumption; pose proof (length_unlines ls); lia).
  rewrite (deliver_accepted fn [] _ Hfn) in Er, Et. simpl in Er, Et.
  split; [exact Er | now rewrite Et].
Qed.

(** X22.  When the handler fails on a line, [OutputPipe] returns that error at
    once: no later line reaches the handler, and the session is closed
    without being waited for. *)
Theorem OutputPipe_stops_at_handler_error c p fn (w : World S) s1 s2
    before bad after err :
  session c = Some p ->
  s_StdoutPipe T (sessions w p) = (None, s1) ->
  s_Start T (String c) s1 = (None, s2) ->
  s_stdout T s2 = unlines (before ++ bad :: after) ->
  Forall short_line (before ++ bad :: after) ->
  (forall i line, map strip_cr before !! i = Some line ->
                  fn (take i (map strip_cr before)) line = None) ->
  fn (map strip_cr before) (strip_cr bad) = Some err ->
  (OutputPipe T c fn w).1 = Some err /\
  trace (OutputPipe T c fn w).2
  = (trace w ++ [Transport p CallStdoutPipe; Transport p (CallStart (String c))]
       ++ map Handler (map strip_cr (before ++ [bad]))
       ++ [Transport p CallClose])%list.
Proof.
  intros Hp H1 H2 Hout Hshort Hfn Hbad.
  destruct (OutputPipe_started c p fn w s1 s2 Hp H1 H2) as [Er Et].
  rewrite Hout in Er, Et.
  rewrite read_lines_unlines in Er, Et
    by (try assumption; pose proof (length_unlines (before ++ bad :: after)); lia).
  rewrite map_app in Er, Et. simpl map in Er, Et.
  rewrite (deliver_rejected fn [] _ _ _ err Hfn Hbad) in Er, Et. simpl in Er, Et.
  split; [exact Er |]. rewrite Et, (map_app strip_cr). reflexivity.
Qed.

(** X23.  When [StdoutPipe] or [Start] fails, [OutputPipe] returns that error:
    nothing is read, the handler is not called, the session is not waited
    for, and it is closed. *)
Theorem OutputPipe_setup_failure c p fn (w : World S) e :
  session c = Some p ->
  (s_StdoutPipe T (sessions w p)).1 = Some e \/
  ((s_StdoutPipe T (sessions w p)).1 = None /\
   (s_Start T (String c) (s_StdoutPipe T (sessions w p)).2).1 = Some e) ->
  (OutputPipe T c fn w).1 = Some e /\
  (trace (OutputPipe T c fn w).2
   = (trace w ++ [Transport p CallStdoutPipe; Transport p CallClose])%list \/
   trace (OutputPipe T c fn w).2
   = (trace w ++ [Transport p CallStdoutPipe; Transport p (CallStart (String c));
                  Transport p CallClose])%list).
Proof.
  intros Hp H.
  destruct (s_StdoutPipe T (sessions w p)) as [r1 s1] eqn:E1. simpl in H.
  destruct H as [-> | [-> H]].
  - assert (Eb : OutputPipe_body T c p fn w
                 = (Some e, {| sessions := <[p := s1]> (sessions w);
                               trace := (trace w ++ [Transport p CallStdoutPipe])%list |})).
    { unfold OutputPipe_body, bind, transport. now rewrite E1. }
    pose proof (then_Close_result T _ (fun r => r) p w _ _ Eb) as E. cbv beta in E.
    unfold OutputPipe. rewrite Hp, E. cbn [fst snd trace].
    split; [reflexivity | left]. now rewrite <- app_assoc.
  - destruct (s_Start T (String c) s1) as [r2 s2] eqn:E2. simpl in H. subst r2.
    assert (Eb : OutputPipe_body T c p fn w
                 = (Some e, {| sessions := <[p := s2]> (<[p := s1]> (sessions w));
                               trace := ((trace w ++ [Transport p CallStdoutPipe])
                                         ++ [Transport p (CallStart (String c))])%list |})).
    { unfold OutputPipe_body, bind, transport. rewrite E1.
      cbn [sessions trace]. now rewrite fn_lookup_insert, E2. }
    pose proof (then_Close_result T _ (fun r => r) p w _ _ Eb) as E. cbv beta in E.
    unfold OutputPipe. rewrite Hp, E. cbn [fst snd trace].
    split; [reflexivity | right]. now rewrite <- !app_assoc.
Qed.

(** X24.  A line of the remote output that does not fit the buffer is never
    handed over in one call: the handler first gets a piece of at most
    [defaultBufSize] bytes, and is called again for what follows. *)
Theorem OutputPipe_splits_long_line c p fn (w : World S) s1 s2 line rest :
  session c = Some p ->
  s_StdoutPipe T (sessions w p) = (None, s1) ->
  s_Start T (String c) s1 = (None, s2) ->
  s_stdout T s2 = (line ++ Byte.x0a :: rest)%list ->
  newline_free line ->
  (defaultBufSize <= length line)%nat ->
  (forall seen l, fn seen l = None) ->
  exists first more,
    handler_lines (trace (OutputPipe T c fn w).2)
    = (handler_lines (trace w) ++ first :: more)%list /\
    first `prefix_of` line /\
    (length first <= defaultBufSize)%nat /\
    more <> [].
Proof.
  intros Hp H1 H2 Hout Hfree Hlong Hfn.
  destruct (OutputPipe_started c p fn w s1 s2 Hp H1 H2) as [_ Et].
  rewrite Hout in Et. set (out := (line ++ Byte.x0a :: rest)%list) in *.
  assert (Hlen : length out = (length line + Datatypes.S (length rest))%nat)
    by (unfold out; now rewrite length_app).
  destruct (ReadLine_full defaultBufSize out) as (k & Hk & Hread).
  { unfold out. rewrite take_app_le by lia. now apply Forall_take. }
  { lia. }
  rewrite read_lines_S, Hread in Et.
  assert (Hrest : drop k out <> []).
  { intros E. apply (f_equal length) in E. rewrite length_drop in E. simpl in E. lia. }
  destruct (length out) as [| n] eqn:En; [lia |].
  rewrite read_lines_S in Et.
  destruct (ReadLine defaultBufSize (drop k out)) as [l2 b2 r2 |] eqn:Hread2;
    [| now apply ReadLine_error in Hread2].
  rewrite (deliver_accepted fn []) in Et by (intros; apply Hfn). simpl in Et.
  exists (take k out), (l2 :: read_lines n r2). rewrite Et.
  rewrite !handler_lines_app. simpl.
  change (Handler (take k out) :: Handler l2 :: map Handler (read_lines n r2))
    with (map Handler (take k out :: l2 :: read_lines n r2)).
  rewrite handler_lines_app, handler_lines_Handler. simpl. rewrite app_nil_r.
  repeat split.
  - unfold out. rewrite take_app_le by lia. apply prefix_take.
  - rewrite length_take. lia.
  - discriminate.
Qed.

End Piping.

Definition two_lines : list (list byte) := [[Byte.x31]; [Byte.x32; Byte.x0d]].

(** A handler that fails on the line "2". *)
Definition rejects_2 : LoggingFunc :=
  fun _ line =>
    match line with
    | [b] => if Byte.eqb b Byte.x32 then Some (ErrUser "stop") else None
    | _ => None
    end.

Lemma OutputPipe_delivers_each_line_witness :
  let c := newCommand (Some 0) "cat" ["f"] in
  let w := example_world (unlines two_lines) in
  let r := OutputPipe example_transport c (fun _ _ => None) w in
  r.1 = None /\
  trace r.2
  = [Transport 0 CallStdoutPipe; Transport 0 (CallStart "cat f");
     Handler [Byte.x31]; Handler [Byte.x32];
     Transport 0 CallWait; Transport 0 CallClose].
Proof.
  intros c w r.
  refine (OutputPipe_delivers_each_line example_transport c 0 (fun _ _ => None) w
            _ _ two_lines eq_refl eq_refl eq_refl eq_refl _ _).
  - repeat constructor; unfold defaultBufSize; simpl; lia.
  - reflexivity.
Defined.

Lemma OutputPipe_stops_at_handler_error_witness :
  let c := newCommand (Some 0) "cat" ["f"] in
  let w := example_world (unlines (two_lines ++ [[Byte.x33]])) in
  let r := OutputPipe example_transport c rejects_2 w in
  r.1 = Some (ErrUser "stop") /\
  trace r.2
  = [Transport 0 CallStdoutPipe; Transport 0 (CallStart "cat f");
     Handler [Byte.x31]; Handler [Byte.x32]; Transport 0 CallClose].
Proof.
  intros c w r.
  refine (OutputPipe_stops_at_handler_error example_transport c 0 rejects_2 w
            _ _ [[Byte.x31]] [Byte.x32; Byte.x0d] [[Byte.x33]] (ErrUser "stop")
            eq_refl eq_refl eq_refl eq_refl _ _ eq_refl).
  - repeat constructor; unfold defaultBufSize; simpl; lia.
  - intros [| i] line; simpl; [intros [= <-]; reflexivity | discriminate].
Defined.

Lemma OutputPipe_setup_failure_witness :
  let c := newCommand (Some 0) "cat" ["f"] in
  let w := (Start example_transport c (example_world [])).2 in
  let r := OutputPipe example_transport c (fun _ _ => None) w in
  r.1 = Some (ErrSSH "ssh: StdoutPipe after process started") /\
  (trace r.2 = (trace w ++ [Transport 0 CallStdoutPipe; Transport 0 CallClose])%list \/
   trace r.2 = (trace w ++ [Transport 0 CallStdoutPipe; Transport 0 (CallStart "cat f");
                            Transport 0 CallClose])%list).
Proof.
  intros c w r.
  apply (OutputPipe_setup_failure example_transport c 0 (fun _ _ => None) w);
    [reflexivity | left; reflexivity].
Defined.

Lemma OutputPipe_splits_long_line_witness :
  let line := replicate 4096 Byte.x61 in
  let c := newCommand (Some 0) "cat" ["big"] in
  let w := example_world (line ++ [Byte.x0a])%list in
  exists first more,
    handler_lines (trace (OutputPipe example_transport c (fun _ _ => None) w).2)
    = (handler_lines (trace w) ++ first :: more)%list /\
    first `prefix_of` line /\
    (length first <= defaultBufSize)%nat /\
    more <> [].
Proof.
  intros line c w.
  refine (OutputPipe_splits_long_line example_transport c 0 (fun _ _ => None) w
            _ _ line [] eq_refl eq_refl eq_refl eq_refl _ _ _).
  - apply Forall_replicate. reflexivity.
  - unfold line. rewrite length_replicate. reflexivity.
  - reflexivity.
Defined.

End OutputPipeExtra.

(** * File transfer (gosh.go: [NewSftp], [Upload], [Download], [ReadFile]) *)

Module Transfer.

(** [io.EOF]. *)
Definition io_EOF : error := ErrOS "EOF".

(** An open remote file, as [ReadFile] reads it: the answers of the
    successive calls of [Read] with the buffer of 1024 bytes, each the
    bytes put into the buffer and the error.  After the last answer
    [Read] reports no byte and [io.EOF]. *)
Definition Reads := list (list byte * option error).

(** What a function holds open: a local file, the SFTP client, a remote
    file. *)
Inductive Handle :=
| LocalFile (path : string)
| SftpClient
| RemoteFile (path : string).

Inductive Event :=
| Acquired (h : Handle)
| Refused (h : Handle)
| Released (h : Handle)
| Copied (src dst : Handle)
| Synced (path : string)
| ReadCalled (path : string).

(** The SFTP library on a connection in state [R].  [sftp_NewClient]
    gets the embedded [*ssh.Client] as it is.  [copy_in] is [io.Copy]
    from the bytes of a local file into the remote file; [copy_out] is
    [io.Copy] from the remote file, with the bytes that reached the local
    file. *)
Record SftpOps (R : Type) := {
  sftp_NewClient : option nat -> R -> option error * R;
  sftp_Close : R -> option error * R;
  sftp_Create : string -> R -> option error * R;
  sftp_Open : string -> R -> result Reads * R;
  file_Close : string -> R -> option error * R;
  copy_in : string -> list byte -> R -> option error * R;
  copy_out : string -> R -> (list byte * option error) * R
}.
Arguments sftp_NewClient {R}.
Arguments sftp_Close {R}.
Arguments sftp_Create {R}.
Arguments sftp_Open {R}.
Arguments file_Close {R}.
Arguments copy_in {R}.
Arguments copy_out {R}.

(** For which paths [os.Open], [os.Create] and [Sync] fail. *)
Record LocalOS := {
  open_error : string -> option error;
  create_error : string -> option error;
  sync_error : string -> option error
}.

(** The connection, the local files and the log of what was done. *)
Record World (R : Type) := {
  remote : R;
  files : gmap string (list byte);
  trace : list Event
}.
Arguments remote {R}.
Arguments files {R}.
Arguments trace {R}.

Section WithTransport.
Context {R : Type} (T : SftpOps R) (os : LocalOS).

Definition M (A : Type) : Type := World R -> A * World R.

Definition ret {A} (a : A) : M A := fun w => (a, w).

Definition bind {A B} (m : M A) (k : A -> M B) : M B :=
  fun w => let (a, w1) := m w in k a w1.

Local Notation "x <- m ;; k" := (bind m (fun x => k))
  (at level 100, m at next level, right associativity).

Definition emit (e : Event) : M unit :=
  fun w => (tt, {| remote := remote w; files := files w;
                   trace := (trace w ++ [e])%list |}).

Definition on_remote {A} (op : R -> A * R) : M A :=
  fun w =>
    let (a, r1) := op (remote w) in
    (a, {| remote := r1; files := files w; trace := trace w |}).

(** [defer]: the deferred call runs when the rest of the function has
    returned; what it returns is dropped. *)
Definition defer {A B} (cleanup : M B) (rest : M A) : M A :=
  r <- rest ;; _ <- cleanup ;; ret r.

(** [os.Open]. *)
Definition os_Open (path : string) : M (result (list byte)) :=
  fun w =>
    match open_error os path, files w !! path with
    | Some err, _ => (_ <- emit (Refused (LocalFile path)) ;; ret (Err err)) w
    | None, None =>
        (_ <- emit (Refused (LocalFile path)) ;;
         ret (Err (ErrOS "no such file or directory"))) w
    | None, Some data => (_ <- emit (Acquired (LocalFile path)) ;; ret (Ok data)) w
    end.

(** [os.Create]: the file is created, and truncated if it exists. *)
Definition os_Create (path : string) : M (option error) :=
  match create_error os path with
  | Some err => _ <- emit (Refused (LocalFile path)) ;; ret (Some err)
  | None =>
      fun w =>
        (None, {| remote := remote w; files := <[path := []]> (files w);
                  trace := (trace w ++ [Acquired (LocalFile path)])%list |})
  end.

(** [Close] of a local file. *)
Definition local_Close (path : string) : M unit := emit (Released (LocalFile path)).

(** [NewSftp]. *)
Definition NewSftp (c : Client.t) : M (option error) :=
  err <- on_remote (sftp_NewClient T (Client.ssh_Client c)) ;;
  match err with
  | Some e => _ <- emit (Refused SftpClient) ;; ret (Some e)
  | None => _ <- emit (Acquired SftpClient) ;; ret None
  end.

Definition ftp_Close : M unit :=
  _ <- on_remote (sftp_Close T) ;; emit (Released SftpClient).

Definition ftp_Create (path : string) : M (option error) :=
  err <- on_remote (sftp_Create T path) ;;
  match err with
  | Some e => _ <- emit (Refused (RemoteFile path)) ;; ret (Some e)
  | None => _ <- emit (Acquired (RemoteFile path)) ;; ret None
  end.

Definition ftp_Open (path : string) : M (result Reads) :=
  r <- on_remote (sftp_Open T path) ;;
  match r with
  | Err e => _ <- emit (Refused (RemoteFile path)) ;; ret (Err e)
  | Ok reads => _ <- emit (Acquired (RemoteFile path)) ;; ret (Ok reads)
  end.

Definition remote_Close (path : string) : M unit :=
  _ <- on_remote (file_Close T path) ;; emit (Released (RemoteFile path)).

(** [Upload]. *)
Definition Upload (c : Client.t) (src dst : string) : M (option error) :=
  local <- os_Open src ;;
  match local with
  | Err err => ret (Some err)
  | Ok data =>
      defer (local_Close src)
        (err <- NewSftp c ;;
         match err with
         | Some err => ret (Some err)
         | None =>
             defer ftp_Close
               (err <- ftp_Create dst ;;
                match err with
                | Some err => ret (Some err)
                | None =>
                    defer (remote_Close dst)
                      (err <- on_remote (copy_in T dst data) ;;
                       _ <- emit (Copied (LocalFile src) (RemoteFile dst)) ;;
                       ret err)
                end)
         end)
  end.

(** [io.Copy(local, remote)] in [Download]: the bytes that arrive are
    written to the local file, which [os.Create] has left empty. *)
Definition copy_to_local (src dst : string) : M (option error) :=
  fun w =>
    let '((bytes, err), r1) := copy_out T src (remote w) in
    (err, {| remote := r1;
             files := <[dst := (default [] (files w !! dst) ++ bytes)%list]> (files w);
             trace := (trace w ++ [Copied (RemoteFile src) (LocalFile dst)])%list |}).

(** [Download]. *)
Definition Download (c : Client.t) (src dst : string) : M (option error) :=
  err <- os_Create dst ;;
  match err with
  | Some err => ret (Some err)
  | None =>
      defer (local_Close dst)
        (err <- NewSftp c ;;
         match err with
         | Some err => ret (Some err)
         | None =>
             defer ftp_Close
               (f <- ftp_Open src ;;
                match f with
                | Err err => ret (Some err)
                | Ok _ =>
                    defer (remote_Close src)
                      (err <- copy_to_local src dst ;;
                       match err with
                       | Some err => ret (Some err)
                       | None => _ <- emit (Synced dst) ;; ret (sync_error os dst)
                       end)
                end)
         end)
  end.

(** The [for] loop of [ReadFile] on a file whose remaining answers are
    [reads]; [chunks] is what has been collected. *)
Fixpoint read_loop (src : string) (reads : Reads) (chunks : list byte)
  : M (list byte * option error) :=
  match reads with
  | [] => _ <- emit (ReadCalled src) ;; ret (chunks, None)
  | (bytes, err) :: rest =>
      _ <- emit (ReadCalled src) ;;
      if bool_decide (err <> None /\ err <> Some io_EOF) then
        ret ([], err)
      else if bool_decide (length bytes = 0%nat) then
        ret (chunks, None)
      else read_loop src rest (chunks ++ bytes)%list
  end.

(** [ReadFile]. *)
Definition ReadFile (c : Client.t) (src : string) : M (list byte * option error) :=
  err <- NewSftp c ;;
  match err with
  | Some err => ret ([], Some err)
  | None =>
      defer ftp_Close
        (f <- ftp_Open src ;;
         match f with
         | Err err => ret ([], Some err)
         | Ok reads => defer (remote_Close src) (read_loop src reads [])
         end)
  end.

End WithTransport.

End Transfer.

(** * Properties of the file transfer *)

Module TransferExtra.
Import Transfer.

(** The handles that the events [evs] acquire, in order. *)
Definition acquired (evs : list Event) : list Handle :=
  omap (fun e => match e with Acquired h => Some h | _ => None end) evs.

Definition releases_nothing (evs : list Event) : Prop :=
  Forall (fun e => forall h, e <> Released h) evs.

(** The three transfers of a client. *)
Inductive Operation :=
| OpUpload (src dst : string)
| OpDownload (src dst : string)
| OpReadFile (src : string).

(** What the loop of [ReadFile] returns. *)
Fixpoint collect (reads : Reads) (chunks : list byte) : list byte * option error :=
  match reads with
  | [] => (chunks, None)
  | (bytes, err) :: rest =>
      if bool_decide (err <> None /\ err <> Some io_EOF) then ([], err)
      else if bool_decide (length bytes = 0%nat) then (chunks, None)
      else collect rest (chunks ++ bytes)%list
  end.

(** A call of [Read] that brings bytes and no error but [io.EOF]. *)
Definition good_read (r : list byte * option error) : Prop :=
  r.1 <> [] /\ (r.2 = None \/ r.2 = Some io_EOF).

Lemma collect_good good tail chunks :
  Forall good_read good ->
  collect (good ++ tail)%list chunks
  = collect tail (chunks ++ concat (map fst good))%list.
Proof.
  revert chunks. induction good as [| [bytes err] good IH]; intros chunks F; simpl.
  - now rewrite app_nil_r.
  - inversion F as [| ? ? [Hb He] F']; subst. simpl in Hb, He.
    rewrite bool_decide_eq_false_2 by (destruct He as [-> | ->]; tauto).
    rewrite bool_decide_eq_false_2 by (destruct bytes; [tauto | discriminate]).
    rewrite IH by assumption. now rewrite <- app_assoc.
Qed.

Section WithTransport.
Context {R : Type} (T : SftpOps R) (os : LocalOS).

Definition perform (c : Client.t) (op : Operation) (w : World R) : World R :=
  match op with
  | OpUpload src dst => (Upload T os c src dst w).2
  | OpDownload src dst => (Download T os c src dst w).2
  | OpReadFile src => (ReadFile T c src w).2
  end.

(** [m] releases, in reverse order, what it has acquired. *)
Definition tidy {A} (m : M (R := R) A) : Prop :=
  forall w, exists work,
    releases_nothing work /\
    trace (m w).2 = (trace w ++ work ++ map Released (rev (acquired work)))%list.

(** [m] neither acquires nor releases. *)
Definition quiet {A} (m : M (R := R) A) : Prop :=
  forall w, exists work,
    acquired work = [] /\ releases_nothing work /\
    trace (m w).2 = (trace w ++ work)%list.

Lemma quiet_tidy {A} (m : M A) : quiet m -> tidy m.
Proof.
  intros Hq w. destruct (Hq w) as (work & Ha & Hr & Ht). exists work.
  split; [exact Hr |]. rewrite Ha. simpl. now rewrite app_nil_r.
Qed.

Lemma quiet_ret {A} (a : A) : quiet (ret a).
Proof. intros w. exists []. repeat split; [constructor | simpl; now rewrite app_nil_r]. Qed.

Lemma quiet_on_remote {A} (op : R -> A * R) : quiet (on_remote op).
Proof.
  intros w. exists []. repeat split; [constructor |].
  unfold on_remote. destruct (op (remote w)). simpl. now rewrite app_nil_r.
Qed.

Lemma quiet_emit e :
  (forall h, e <> Acquired h) -> (forall h, e <> Released h) -> quiet (emit (R := R) e).
Proof.
  intros Ha Hr w. exists [e]. repeat split.
  - destruct e; try reflexivity. now destruct (Ha h).
  - now apply Forall_singleton.
Qed.

Lemma quiet_bind {A B} (m : M A) (k : A -> M B) :
  quiet m -> (forall a, quiet (k a)) -> quiet (bind m k).
Proof.
  intros Hm Hk w. unfold bind. destruct (Hm w) as (e1 & A1 & F1 & E1).
  destruct (m w) as [a w1]. destruct (Hk a w1) as (e2 & A2 & F2 & E2). simpl in *.
  exists (e1 ++ e2)%list. repeat split.
  - unfold acquired in *. now rewrite omap_app, A1, A2.
  - now apply Forall_app.
  - now rewrite E2, E1, app_assoc.
Qed.

Lemma quiet_read_loop src reads chunks : quiet (read_loop (R := R) src reads chunks).
Proof.
  revert chunks. induction reads as [| [bytes err] reads IH]; intros chunks; simpl.
  - apply quiet_bind; [apply quiet_emit; discriminate | intros; apply quiet_ret].
  - apply quiet_bind; [apply quiet_emit; discriminate |]. intros _.
    repeat case_bool_decide; try apply quiet_ret. apply IH.
Qed.

Lemma read_loop_collect src reads chunks (w : World R) :
  (read_loop src reads chunks w).1 = collect reads chunks.
Proof.
  revert chunks w. induction reads as [| [bytes err] reads IH]; intros chunks w; simpl.
  - reflexivity.
  - unfold bind, emit. repeat case_bool_decide; try reflexivity. apply IH.
Qed.

(** An acquisition that fails returns at once; one that succeeds is
    followed by the deferred release and the rest of the function. *)
Lemma tidy_scope {X A} h (acq : M X) (ok : X -> bool) (k : X -> M A) :
  (forall w, trace (acq w).2
             = (trace w ++ [if ok (acq w).1 then Acquired h else Refused h])%list) ->
  (forall x, ok x = false -> exists a, k x = ret a) ->
  (forall x, ok x = true ->
     exists (cleanup : M unit) body,
       k x = defer cleanup body /\
       (forall w, trace (cleanup w).2 = (trace w ++ [Released h])%list) /\
       tidy body) ->
  tidy (bind acq k).
Proof.
  intros Hacq Hfail Hok w. unfold bind. specialize (Hacq w).
  destruct (acq w) as [x w1]. simpl in Hacq. destruct (ok x) eqn:Hx.
  - destruct (Hok x Hx) as (cleanup & body & -> & Hc & Hb).
    destruct (Hb w1) as (work & Hr & Ht).
    exists (Acquired h :: work). split.
    + constructor; [discriminate | exact Hr].
    + unfold defer, bind, ret. destruct (body w1) as [r w2]. simpl in Ht.
      specialize (Hc w2). destruct (cleanup w2) as [u w3]. simpl in *.
      rewrite Hc, Ht, Hacq, map_app. simpl. now rewrite <- !app_assoc.
  - destruct (Hfail x Hx) as (a & ->). exists [Refused h]. split.
    + apply Forall_singleton. discriminate.
    + simpl. exact Hacq.
Qed.

Lemma os_Open_trace path (w : World R) :
  trace (os_Open os path w).2
  = (trace w ++ [if match (os_Open os path w).1 with Ok _ => true | Err _ => false end
                 then Acquired (LocalFile path) else Refused (LocalFile path)])%list.
Proof. unfold os_Open. now destruct (open_error os path), (files w !! path). Qed.

Lemma os_Create_trace path (w : World R) :
  trace (os_Create os path w).2
  = (trace w ++ [if match (os_Create os path w).1 with None => true | Some _ => false end
                 then Acquired (LocalFile path) else Refused (LocalFile path)])%list.
Proof. unfold os_Create. now destruct (create_error os path). Qed.

Lemma NewSftp_trace c (w : World R) :
  trace (NewSftp T c w).2
  = (trace w ++ [if match (NewSftp T c w).1 with None => true | Some _ => false end
                 then Acquired SftpClient else Refused SftpClient])%list.
Proof.
  unfold NewSftp, bind, on_remote.
  now destruct (sftp_NewClient T (Client.ssh_Client c) (remote w)) as [[e |] r1].
Qed.

Lemma ftp_Create_trace path (w : World R) :
  trace (ftp_Create T path w).2
  = (trace w ++ [if match (ftp_Create T path w).1 with None => true | Some _ => false end
                 then Acquired (RemoteFile path) else Refused (RemoteFile path)])%list.
Proof.
  unfold ftp_Create, bind, on_remote.
  now destruct (sftp_Create T path (remote w)) as [[e |] r1].
Qed.

Lemma ftp_Open_trace path (w : World R) :
  trace (ftp_Open T path w).2
  = (trace w ++ [if match (ftp_Open T path w).1 with Ok _ => true | Err _ => false end
                 then Acquired (RemoteFile path) else Refused (RemoteFile path)])%list.
Proof.
  unfold ftp_Open, bind, on_remote.
  now destruct (sftp_Open T path (remote w)) as [[reads | e] r1].
Qed.

Lemma ftp_Close_trace (w : World R) :
  trace (ftp_Close T w).2 = (trace w ++ [Released SftpClient])%list.
Proof. unfold ftp_Close, bind, on_remote. now destruct (sftp_Close T (remote w)). Qed.

Lemma remote_Close_trace path (w : World R) :
  trace (remote_Close T path w).2 = (trace w ++ [Released (RemoteFile path)])%list.
Proof. unfold remote_Close, bind, on_remote. now destruct (file_Close T path (remote w)). Qed.

Lemma quiet_copy_to_local src dst : quiet (copy_to_local T src dst).
Proof.
  intros w. exists [Copied (RemoteFile src) (LocalFile dst)].
  repeat split; [apply Forall_singleton; discriminate |].
  unfold copy_to_local. now destruct (copy_out T src (remote w)) as [[bytes err] r1].
Qed.

Ltac scope_failed := intros [|] Hx; try discriminate Hx; eexists; reflexivity.
Ltac scope_entered lemma :=
  intros [|] Hx; try discriminate Hx;
  eexists _, _; split; [reflexivity | split; [intros; apply lemma |]].

Lemma tidy_Upload c src dst : tidy (Upload T os c src dst).
Proof.
  unfold Upload.
  apply (tidy_scope (LocalFile src) _
           (fun r => match r with Ok _ => true | Err _ => false end));
    [apply os_Open_trace | intros [|] Hx; try discriminate Hx; eexists; reflexivity |].
  intros [data |] Hx; try discriminate Hx.
  eexists _, _; split; [reflexivity | split; [reflexivity |]].
  apply (tidy_scope SftpClient _
           (fun r => match r with None => true | Some _ => false end));
    [apply NewSftp_trace | intros [|] Hy; try discriminate Hy; eexists; reflexivity |].
  intros [|] Hy; try discriminate Hy.
  eexists _, _; split; [reflexivity | split; [apply ftp_Close_trace |]].
  apply (tidy_scope (RemoteFile dst) _
           (fun r => match r with None => true | Some _ => false end));
    [apply ftp_Create_trace | intros [|] Hz; try discriminate Hz; eexists; reflexivity |].
  intros [|] Hz; try discriminate Hz.
  eexists _, _; split; [reflexivity | split; [apply remote_Close_trace |]].
  apply quiet_tidy, quiet_bind; [apply quiet_on_remote |]. intros err.
  apply quiet_bind; [apply quiet_emit; discriminate | intros; apply quiet_ret].
Qed.

Lemma tidy_Download c src dst : tidy (Download T os c src dst).
Proof.
  unfold Download.
  apply (tidy_scope (LocalFile dst) _
           (fun r => match r with None => true | Some _ => false end));
    [apply os_Create_trace | intros [|] Hx; try discriminate Hx; eexists; reflexivity |].
  intros [|] Hx; try discriminate Hx.
  eexists _, _; split; [reflexivity | split; [reflexivity |]].
  apply (tidy_scope SftpClient _
           (fun r => match r with None => true | Some _ => false end));
    [apply NewSftp_trace | intros [|] Hy; try discriminate Hy; eexists; reflexivity |].
  intros [|] Hy; try discriminate Hy.
  eexists _, _; split; [reflexivity | split; [apply ftp_Close_trace |]].
  apply (tidy_scope (RemoteFile src) _
           (fun r => match r with Ok _ => true | Err _ => false end));
    [apply ftp_Open_trace | intros [|] Hz; try discriminate Hz; eexists; reflexivity |].
  intros [reads |] Hz; try discriminate Hz.
  eexists _, _; split; [reflexivity | split; [apply remote_Close_trace |]].
  apply quiet_tidy, quiet_bind; [apply quiet_copy_to_local |]. intros [err |].
  - apply quiet_ret.
  - apply quiet_bind; [apply quiet_emit; discriminate | intros; apply quiet_ret].
Qed.

Lemma tidy_ReadFile c src : tidy (ReadFile T c src).
Proof.
  unfold ReadFile.
  apply (tidy_scope SftpClient _
           (fun r => match r with None => true | Some _ => false end));
    [apply NewSftp_trace | intros [|] Hy; try discriminate Hy; eexists; reflexivity |].
  intros [|] Hy; try discriminate Hy.
  eexists _, _; split; [reflexivity | split; [apply ftp_Close_trace |]].
  apply (tidy_scope (RemoteFile src) _
           (fun r => match r with Ok _ => true | Err _ => false end));
    [apply ftp_Open_trace | intros [|] Hz; try discriminate Hz; eexists; reflexivity |].
  intros [reads |] Hz; try discriminate Hz.
  eexists _, _; split; [reflexivity | split; [apply remote_Close_trace |]].
  apply quiet_tidy, quiet_read_loop.
Qed.

(** X25.  [Upload], [Download] and [ReadFile] release every handle that they
    have acquired, the last acquired first, on every path, and they
    release nothing before all the work is done. *)
Theorem transfer_releases_what_it_acquired c op (w : World R) :
  exists work,
    releases_nothing work /\
    trace (perform c op w)
    = (trace w ++ work ++ map Released (rev (acquired work)))%list.
Proof.
  destruct op; simpl.
  - apply tidy_Upload.
  - apply tidy_Download.
  - apply tidy_ReadFile.
Qed.

(** [ReadFile] once the client and the file are open. *)
Lemma ReadFile_opened c src (w : World R) r1 r2 reads :
  sftp_NewClient T (Client.ssh_Client c) (remote w) = (None, r1) ->
  sftp_Open T src r1 = (Ok reads, r2) ->
  (ReadFile T c src w).1 = collect reads [].
Proof.
  intros H1 H2. unfold ReadFile, NewSftp, bind at 1 2, on_remote. rewrite H1.
  cbn [emit bind ret]. unfold defer, bind at 1. unfold ftp_Open, bind at 1 2, on_remote.
  cbn [remote]. rewrite H2. cbn [emit bind ret]. unfold bind at 1 2.
  match goal with |- context [read_loop ?s ?r ?c ?w] =>
    pose proof (read_loop_collect s r c w) as E; destruct (read_loop s r c w) end.
  simpl in E. subst. unfold bind, remote_Close, ftp_Close, bind, on_remote, emit, ret.
  simpl. destruct (file_Close T src _). simpl. now destruct (sftp_Close T _).
Qed.

(** X26.  [ReadFile] returns the bytes of the calls of [Read], in order, up to
    the end of the file or to the first call that brings no byte; what
    the file holds after such a call is not read. *)
Theorem ReadFile_returns_what_was_read c src (w : World R) r1 r2 reads good tail :
  sftp_NewClient T (Client.ssh_Client c) (remote w) = (None, r1) ->
  sftp_Open T src r1 = (Ok reads, r2) ->
  reads = (good ++ tail)%list ->
  Forall good_read good ->
  (tail = [] \/
   exists err rest, tail = ([], err) :: rest /\ (err = None \/ err = Some io_EOF)) ->
  (ReadFile T c src w).1 = (concat (map fst good), None).
Proof.
  intros H1 H2 -> Hgood Htail.
  rewrite (ReadFile_opened c src w r1 r2 _ H1 H2), collect_good by assumption.
  destruct Htail as [-> | (err & rest & -> & He)]; [reflexivity |]. simpl.
  rewrite bool_decide_eq_false_2 by (destruct He as [-> | ->]; tauto).
  reflexivity.
Qed.

(** X27.  When a call of [Read] reports an error other than [io.EOF],
    [ReadFile] returns that error and no data: what was read before, and
    what came with the error, is dropped. *)
Theorem ReadFile_read_error_drops_data c src (w : World R) r1 r2 reads
    good bytes e rest :
  sftp_NewClient T (Client.ssh_Client c) (remote w) = (None, r1) ->
  sftp_Open T src r1 = (Ok reads, r2) ->
  reads = (good ++ (bytes, Some e) :: rest)%list ->
  Forall good_read good ->
  e <> io_EOF ->
  (ReadFile T c src w).1 = ([], Some e).
Proof.
  intros H1 H2 -> Hgood He.
  rewrite (ReadFile_opened c src w r1 r2 _ H1 H2), collect_good by assumption.
  simpl. rewrite bool_decide_eq_true_2; [reflexivity |].
  split; [discriminate | congruence].
Qed.

(** X28.  [Download] creates the local file before it talks to the server: when
    the SFTP client cannot be made or the remote file cannot be opened,
    [Download] returns that error and leaves the local file empty,
    whatever it held before. *)
Theorem Download_failure_leaves_empty_file c src dst (w : World R) e :
  create_error os dst = None ->
  (sftp_NewClient T (Client.ssh_Client c) (remote w)).1 = Some e \/
  ((sftp_NewClient T (Client.ssh_Client c) (remote w)).1 = None /\
   (sftp_Open T src (sftp_NewClient T (Client.ssh_Client c) (remote w)).2).1 = Err e) ->
  (Download T os c src dst w).1 = Some e /\
  files (Download T os c src dst w).2 !! dst = Some [].
Proof.
  intros Hc H.
  destruct (sftp_NewClient T (Client.ssh_Client c) (remote w)) as [a r1] eqn:E1.
  simpl in H.
  unfold Download, os_Create. rewrite Hc.
  unfold defer, NewSftp, ftp_Open, ftp_Close, remote_Close, local_Close,
    bind, on_remote, emit, ret.
  cbn [remote files trace]. rewrite E1.
  destruct H as [-> | [-> H]].
  - cbn [remote files trace fst snd]. split; [reflexivity | apply lookup_insert_eq].
  - cbn [remote files trace]. destruct (sftp_Open T src r1) as [f r2]. simpl in H.
    subst f. cbn [remote files trace]. destruct (sftp_Close T r2).
    cbn [remote files trace fst snd]. split; [reflexivity | apply lookup_insert_eq].
Qed.

End WithTransport.

(** A server for examples: it is reachable or not, and its one file
    answers [Read] with [reads]. *)
Definition example_sftp (reachable : bool) (reads : Reads) : SftpOps unit :=
  {| sftp_NewClient := fun _ r =>
       (if reachable then None else Some (ErrSSH "connection lost"), r);
     sftp_Close := fun r => (None, r);
     sftp_Create := fun _ r => (None, r);
     sftp_Open := fun _ r => (Ok reads, r);
     file_Close := fun _ r => (None, r);
     copy_in := fun _ _ r => (None, r);
     copy_out := fun _ r => ((concat (map fst reads), None), r) |}.

Definition example_os : LocalOS :=
  {| open_error := fun _ => None;
     create_error := fun _ => None;
     sync_error := fun _ => None |}.

Definition example_world (fs : gmap string (list byte)) : World unit :=
  {| remote := tt; files := fs; trace := [] |}.

Definition example_client : Client.t :=
  {| Client.ssh_Client := Some 0%nat;
     Client.opts := NewOptions;
     Client.auth := None;
     Client.callback := Client.InsecureIgnoreHostKey |}.

Lemma ReadFile_returns_what_was_read_witness :
  let reads := [([Byte.x61; Byte.x62], None); ([Byte.x63], Some io_EOF);
                ([], None); ([Byte.x64], None)] in
  (ReadFile (example_sftp true reads) example_client "f" (example_world ∅)).1
  = ([Byte.x61; Byte.x62; Byte.x63], None).
Proof.
  intros reads.
  refine (ReadFile_returns_what_was_read (example_sftp true reads) example_client "f"
            (example_world ∅) tt tt reads
            [([Byte.x61; Byte.x62], None); ([Byte.x63], Some io_EOF)]
            [([], None); ([Byte.x64], None)] eq_refl eq_refl eq_refl _ _).
  - repeat constructor; simpl; auto; discriminate.
  - right. exists None, [([Byte.x64], None)]. auto.
Defined.

Lemma ReadFile_read_error_drops_data_witness :
  let reads := [([Byte.x61; Byte.x62], None); ([Byte.x63], Some (ErrSSH "connection lost"))] in
  (ReadFile (example_sftp true reads) example_client "f" (example_world ∅)).1
  = ([], Some (ErrSSH "connection lost")).
Proof.
  intros reads.
  refine (ReadFile_read_error_drops_data (example_sftp true reads) example_client "f"
            (example_world ∅) tt tt reads [([Byte.x61; Byte.x62], None)] [Byte.x63]
            (ErrSSH "connection lost") [] eq_refl eq_refl eq_refl _ _).
  - repeat constructor; simpl; auto; discriminate.
  - discriminate.
Defined.

Lemma Download_failure_leaves_empty_file_witness :
  let w := example_world {[ "backup" := [Byte.x61; Byte.x62] ]} in
  let r := Download (example_sftp false []) example_os example_client "f" "backup" w in
  r.1 = Some (ErrSSH "connection lost") /\ files r.2 !! "backup" = Some [].
Proof.
  intros w r.
  apply (Download_failure_leaves_empty_file (example_sftp false []) example_os
           example_client "f" "backup" w); [reflexivity | left; reflexivity].
Defined.

End TransferExtra.

(** * Commands of a client (gosh.go: [CombinedOutput],
      [CombinedOutputContext], [Command], [CommandContext]) *)

Module Facade.
Import Cmd.

Section WithTransport.
Context {S : Type} (T : SessionOps S).

(** The method [NewSession] of the embedded [*ssh.Client]: it answers
    with the address of a new session or with an error. *)
Variable NewSession : option nat -> (nat -> S) -> result nat * (nat -> S).

Definition c_NewSession (c : Client.t) : M (S := S) (result nat) :=
  fun w =>
    let (r, ss) := NewSession (Client.ssh_Client c) (sessions w) in
    (r, {| sessions := ss; trace := trace w |}).

(** [Client.CombinedOutput]. *)
Definition CombinedOutput (c : Client.t) (command : string)
  : M (list byte * option error) :=
  bind (c_NewSession c) (fun r =>
    match r with
    | Err err => ret ([], Some err)
    | Ok p =>
        bind (transport p (CallCombinedOutput command) (s_CombinedOutput T command))
          (fun out => bind (deferred_Close T p) (fun _ => ret out))
    end).

(** [Client.Command]. *)
Definition Command (c : Client.t) (name : string) (args : list string)
  : M (result Cmd.t) :=
  bind (c_NewSession c) (fun r =>
    match r with
    | Err err => ret (Err err)
    | Ok p => ret (Ok (newCommand (Some p) name args))
    end).

(** [Client.CommandContext]; [None] is the panic of [newCommandContext]
    on a [nil] context, which comes after the session was made. *)
Definition CommandContext (c : Client.t) (ctx : option Context) (name : string)
    (args : list string) : M (option (result Cmd.t)) :=
  bind (c_NewSession c) (fun r =>
    match r with
    | Err err => ret (Some (Err err))
    | Ok p =>
        match newCommandContext ctx (Some p) name args with
        | None => ret None
        | Some cmd => ret (Some (Ok cmd))
        end
    end).

(** [Client.CombinedOutputContext]. *)
Definition CombinedOutputContext (c : Client.t) (ctx : option Context)
    (command : string) : M (option (list byte * option error)) :=
  bind (CommandContext c ctx command []) (fun r =>
    match r with
    | None => ret None
    | Some (Err err) => ret (Some ([], Some err))
    | Some (Ok cmd) => bind (Cmd.CombinedOutput T cmd) (fun out => ret (Some out))
    end).

(** X29.  The two ways to run a command line give the same:
    [Client.CombinedOutput] does what [Client.Command] with no arguments
    followed by [Cmd.CombinedOutput] does. *)
Theorem CombinedOutput_through_Command c command (w : World S) :
  CombinedOutput c command w
  = bind (Command c command []) (fun r =>
      match r with
      | Err err => ret ([], Some err)
      | Ok cmd => Cmd.CombinedOutput T cmd
      end) w.
Proof.
  unfold CombinedOutput, Command, bind.
  destruct (c_NewSession c w) as [[p | err] w1]; reflexivity.
Qed.

(** X30.  A [nil] context is found out only after the session was made:
    [CommandContext] and [CombinedOutputContext] then panic and leave the
    new session open. *)
Theorem nil_context_panics_after_NewSession c name args (w : World S) p ss :
  NewSession (Client.ssh_Client c) (sessions w) = (Ok p, ss) ->
  CommandContext c None name args w = (None, {| sessions := ss; trace := trace w |}) /\
  CombinedOutputContext c None name w
  = (None, {| sessions := ss; trace := trace w |}).
Proof.
  intros H. unfold CombinedOutputContext, CommandContext, bind, c_NewSession.
  now rewrite H.
Qed.

End WithTransport.

Lemma nil_context_panics_after_NewSession_witness :
  let NewSession := fun (_ : option nat) (ss : nat -> CmdSpec.ExampleSession) =>
                      (Ok 0%nat, ss) in
  let w := CmdSpec.example_world [] in
  CommandContext NewSession ClientExtra.example_client None "echo" ["hi"] w
  = (None, {| sessions := sessions w; trace := trace w |}) /\
  CombinedOutputContext CmdSpec.example_transport NewSession
    ClientExtra.example_client None "echo" w
  = (None, {| sessions := sessions w; trace := trace w |}).
Proof.
  intros NewSession w.
  apply (nil_context_panics_after_NewSession CmdSpec.example_transport NewSession
           ClientExtra.example_client "echo" ["hi"] w 0%nat (sessions w)).
  reflexivity.
Defined.

End Facade.
